(** * pairwise_aligner: lanes, affine kernel and saturated offset rebasing

    A shallow embedding of the vectorised DP core of the pairwise aligner:
    - [affine_dp_algorithm]: [initialise_column], [finalise_column] and
      [compute_cell] (the affine recurrence kernel);
    - [dp_matrix::_lane]: the lane constructor and destructor with
      [unroll_load] / [unroll_store];
    - [dp_matrix::_column_saturated::_wrapper]: [reset], [update_offset_impl],
      [check_saturated_arithmetic] and [update_offset];
    - [intermediate_dp_vector::initialise] and
      [simd_intermediate_dp_vector::initialise];
    - [cfg::score_model_matrix]: the rank map and the linear matrix.

    Unchecked accesses ([operator[]] on a vector or a [std::array]) are
    modelled as partial reads and writes: [None] stands for an access outside
    the container.  Indices and sizes ([size_t]) are natural numbers; the one
    [size_t] subtraction of the sources has its wrap-around written out. *)

From Stdlib Require Import ZArith Lia.
From stdpp Require Import base option list.

(* ===================================================================== *)
(** ** Score types *)
(* ===================================================================== *)

Module Score.

Local Open Scope Z_scope.

(** Representable range of the narrow lane type ([int8_t]). *)
Definition narrow_min : Z := -128.
Definition narrow_max : Z := 127.

(** Saturation to the narrow range. *)
Definition saturate (x : Z) : Z := Z.max narrow_min (Z.min narrow_max x).

(** Two's complement reduction to the wide type ([int32_t]). *)
Definition wrap32 (x : Z) : Z := (x + 2 ^ 31) mod 2 ^ 32 - 2 ^ 31.

(** A SIMD score is the list of its lanes; lane [k] of [x] is [x !! k]. *)
Abbreviation simd_score := (list Z).

(** The operations a score type offers to the kernel. *)
Class ScoreOps (score_t : Type) : Type := {
  score_add : score_t → score_t → score_t;
  score_max : score_t → score_t → score_t
}.

(** Scalar [int32_t] scores. *)
Definition wide_scalar_ops : ScoreOps Z :=
  {| score_add := λ x y, wrap32 (x + y); score_max := Z.max |}.

(** Modelled from the spec: the narrow score lane ([simd_score] is not among
    the sources) offers element-wise saturating add and subtract and
    element-wise max; out-of-range results saturate to the representable
    extremes. *)
Definition adds (x y : simd_score) : simd_score :=
  zip_with (λ a b, saturate (a + b)) x y.
Definition subs (x y : simd_score) : simd_score :=
  zip_with (λ a b, saturate (a - b)) x y.
Definition maxs (x y : simd_score) : simd_score := zip_with Z.max x y.

Definition saturated_simd_ops : ScoreOps simd_score :=
  {| score_add := adds; score_max := maxs |}.

(** Lane-wise operations of the widened SIMD score ([large_score_t], lanes
    of [int32_t]). *)
Definition wide_add (x y : simd_score) : simd_score :=
  zip_with (λ a b, wrap32 (a + b)) x y.
Definition wide_sub (x y : simd_score) : simd_score :=
  zip_with (λ a b, wrap32 (a - b)) x y.

(** [large_score_t{x}]: every narrow lane converted to the wide type. *)
Definition widen (x : simd_score) : simd_score := x.

End Score.

(* ===================================================================== *)
(** ** The affine recurrence kernel ([affine_dp_algorithm]) *)
(* ===================================================================== *)

Module Affine.
Import Score.

Record gap_model (score_t : Type) : Type := {
  gap_open_score : score_t;
  gap_extension_score : score_t
}.
Arguments gap_open_score {score_t} _.
Arguments gap_extension_score {score_t} _.

Section Kernel.
Context {score_t seq1_val_t seq2_val_t : Type} `{ops : ScoreOps score_t}.
(** [_score_model.score] of the substitution-model provider. *)
Variable score : seq1_val_t → seq2_val_t → score_t.
Variable _gap_model : gap_model score_t.

(** A DP cell is the pair [(get<0>, get<1>)]. *)
Abbreviation cell := (score_t * score_t)%type.

(** Returns the cache and the updated first column cell. *)
Definition initialise_column (current_row_cell first_column_cell : cell)
  : cell * cell :=
  let cache := (first_column_cell.1, current_row_cell.2) in
  let c0 := current_row_cell.1 in
  let c1 := score_max
              (score_add cache.1 (gap_open_score _gap_model))
              (score_add first_column_cell.2 (gap_extension_score _gap_model)) in
  (cache, (c0, c1)).

(** Returns the updated row cell. *)
Definition finalise_column (current_row_cell last_column_cell cache : cell)
  : cell :=
  (last_column_cell.1, cache.2).

(** Returns the updated cache and the updated column cell. *)
Definition compute_cell (cache column_cell : cell)
    (seq1_val : seq1_val_t) (seq2_val : seq2_val_t) : cell * cell :=
  let '(next_diagonal, horizontal_score) := column_cell in
  let first := score_add cache.1 (score seq1_val seq2_val) in
  let first := score_max (score_max first cache.2) horizontal_score in
  let cell0 := first in
  let first := score_add first
                 (score_add (gap_open_score _gap_model)
                            (gap_extension_score _gap_model)) in
  let second :=
    score_max (score_add cache.2 (gap_extension_score _gap_model)) first in
  let cell1 :=
    score_max (score_add horizontal_score (gap_extension_score _gap_model))
              first in
  ((next_diagonal, second), (cell0, cell1)).
End Kernel.

End Affine.

(* ===================================================================== *)
(** ** Lanes ([dp_matrix::_lane]) *)
(* ===================================================================== *)

Module Lane.

(** The [size_t] difference [a - b] of two sizes: it wraps around modulo
    [2^64] when [b] exceeds [a]. *)
Definition size_t_sub (a b : nat) : nat :=
  if decide (b ≤ a) then a - b
  else Z.to_nat (2 ^ 64 - Z.of_nat (b - a)).

(** Unchecked write [a[i] = x]; defined only inside the container. *)
Definition array_set {A : Type} (a : list A) (i : nat) (x : A)
  : option (list A) :=
  if decide (i < length a) then Some (<[i:=x]> a) else None.

Section Lane.
Context {row_cell column_cell : Type}.
(** The value of a default-initialised cell of the cache. *)
Variable default_cell : row_cell.

(** The block a lane works on: the column segment and the row segment. *)
Record dp_block : Type := {
  column : list column_cell;
  row : list row_cell
}.

Record lane : Type := {
  _dp_block : dp_block;
  _cached_row : list row_cell;
  _row_offset : nat
}.

(** [((bulk_cache[idx] = row_vector[offset + idx]), ...)] over [indices]. *)
Fixpoint unroll_load (bulk_cache row_vector : list row_cell) (offset : nat)
    (indices : list nat) : option (list row_cell) :=
  match indices with
  | [] => Some bulk_cache
  | idx :: rest =>
      x ← row_vector !! (offset + idx);
      bulk_cache' ← array_set bulk_cache idx x;
      unroll_load bulk_cache' row_vector offset rest
  end.

(** [((row_vector[offset + idx] = bulk_cache[idx]), ...)] over [indices]. *)
Fixpoint unroll_store (row_vector bulk_cache : list row_cell) (offset : nat)
    (indices : list nat) : option (list row_cell) :=
  match indices with
  | [] => Some row_vector
  | idx :: rest =>
      x ← bulk_cache !! idx;
      row_vector' ← array_set row_vector (offset + idx) x;
      unroll_store row_vector' bulk_cache offset rest
  end.

(** The run-time loop of the last lane's constructor:
    [for (i = 0; i < end_index; ++i) _cached_row[i] = row[i + _row_offset]]. *)
Fixpoint last_lane_load (cached_row row_vector : list row_cell)
    (row_offset i count : nat) : option (list row_cell) :=
  match count with
  | O => Some cached_row
  | S count' =>
      x ← row_vector !! (i + row_offset);
      cached_row' ← array_set cached_row i x;
      last_lane_load cached_row' row_vector row_offset (S i) count'
  end.

(** The run-time loop of the last lane's destructor:
    [for (i = 0; i < end_index; ++i) row[i + _row_offset] = _cached_row[i]]. *)
Fixpoint last_lane_store (row_vector cached_row : list row_cell)
    (row_offset i count : nat) : option (list row_cell) :=
  match count with
  | O => Some row_vector
  | S count' =>
      x ← cached_row !! i;
      row_vector' ← array_set row_vector (i + row_offset) x;
      last_lane_store row_vector' cached_row row_offset (S i) count'
  end.

(** The constructor [type(dp_block, row_offset)] for the template arguments
    [lane_width] and [is_last_lane]. *)
Definition lane_construct (lane_width : nat) (is_last_lane : bool)
    (dp_block : dp_block) (row_offset : nat) : option lane :=
  let _row_offset := row_offset + 1 in
  let _cached_row := replicate lane_width default_cell in
  cached ←
    (if negb is_last_lane then
       unroll_load _cached_row (row dp_block) _row_offset (seq 0 lane_width)
     else
       let end_index := size_t_sub (length (row dp_block)) _row_offset in
       last_lane_load _cached_row (row dp_block) _row_offset 0 end_index);
  Some {| _dp_block := dp_block; _cached_row := cached;
          _row_offset := _row_offset |}.

(** The destructor [~type()]; returns the block as the lane leaves it. *)
Definition lane_destruct (lane_width : nat) (is_last_lane : bool) (l : lane)
  : option dp_block :=
  row' ←
    (if negb is_last_lane then
       unroll_store (row (_dp_block l)) (_cached_row l) (_row_offset l)
                    (seq 0 lane_width)
     else
       let end_index :=
         size_t_sub (length (row (_dp_block l))) (_row_offset l) in
       last_lane_store (row (_dp_block l)) (_cached_row l) (_row_offset l)
                       0 end_index);
  Some {| column := column (_dp_block l); row := row' |}.

(** A lane whose transfers stay inside the row and the cache. *)
Definition lane_fits (lane_width : nat) (is_last_lane : bool)
    (blk : dp_block) (row_offset : nat) : Prop :=
  if is_last_lane
  then row_offset + 1 ≤ length (row blk) ∧
       length (row blk) - (row_offset + 1) ≤ lane_width
  else row_offset + 1 + lane_width ≤ length (row blk).

End Lane.

Arguments dp_block : clear implicits.
Arguments lane : clear implicits.

End Lane.

(* ===================================================================== *)
(** ** The saturated wrapper ([dp_matrix::_column_saturated::_wrapper]) *)
(* ===================================================================== *)

Module Saturated.
Import Score.

Local Open Scope Z_scope.

(** An affine cell of narrow SIMD scores: [(get<0>, get<1>)]. *)
Abbreviation cell := (simd_score * simd_score)%type.

(** Modelled from the spec: [cell.score()] (the cell class is not among the
    sources) is the best score [m] of the cell, its first component. *)
Definition score (c : cell) : simd_score := c.1.

(** The kind of cell a DP vector stores, and the trait [is_row_cell_v] of
    the cell type (declared outside the sources): it holds of row cells
    only. *)
Inductive cell_kind : Type := column_cell | row_cell.

Definition is_row_cell_v (kind : cell_kind) : bool :=
  match kind with
  | column_cell => false
  | row_cell => true
  end.

(** The wrapped saturated DP vector: its cells ([base()]), its wide offset
    ([offset()]) and its narrow [saturated_zero_offset()]. *)
Record dp_vector : Type := {
  base : list cell;
  offset : simd_score;
  saturated_zero_offset : simd_score
}.

(** Modelled from the spec: [update_offset] of the wrapped DP vector, whose
    class is not among the sources.  It replaces the stored offset by
    [offset + new_offset - ZERO], computed in the wide type, and does not
    touch the cells. *)
Definition dp_vector_update_offset (v : dp_vector) (new_offset : simd_score)
  : dp_vector :=
  {| base := base v;
     offset := wide_sub (wide_add (offset v) (widen new_offset))
                        (widen (saturated_zero_offset v));
     saturated_zero_offset := saturated_zero_offset v |}.

(** The narrow rebase of one stored value:
    [values -= new_offset; values += saturated_zero_offset]. *)
Definition rebase_value (new_offset zero_offset x : simd_score) : simd_score :=
  adds (subs x new_offset) zero_offset.

(** The same computation in [large_score_t]. *)
Definition rebase_value_wide (new_offset zero_offset x : simd_score)
  : simd_score :=
  wide_add (wide_sub (widen x) (widen new_offset)) (widen zero_offset).

(** [reset]: every value of every cell is rebased. *)
Definition reset (v : dp_vector) (new_offset : simd_score) : dp_vector :=
  {| base := (λ c : cell,
                (rebase_value new_offset (saturated_zero_offset v) c.1,
                 rebase_value new_offset (saturated_zero_offset v) c.2))
             <$> base v;
     offset := offset v;
     saturated_zero_offset := saturated_zero_offset v |}.

Definition update_offset_impl (v : dp_vector) (new_offset : simd_score)
  : dp_vector :=
  dp_vector_update_offset (reset v new_offset) new_offset.

(** What the error message of [check_saturated_arithmetic] reports. *)
Record diagnostic : Type := {
  diag_i : nat;
  diag_k : nat;
  diag_real_score : Z;
  diag_expected_score : Z;
  diag_cell : Z * Z;
  diag_offset : Z;
  diag_zero_offset : Z
}.

(** [for (k = 0; k < score_t::size; ++k)
       if (expected_score[k] != real_score[k]) throw_error(k);]
    returns the lane that throws, if one does. *)
Fixpoint first_mismatch (k : nat) (expected_score real_score : simd_score)
  : option nat :=
  match expected_score, real_score with
  | e :: expected_score', r :: real_score' =>
      if decide (e ≠ r) then Some k
      else first_mismatch (S k) expected_score' real_score'
  | _, _ => None
  end.

(** [throw_error(k)] in the body of cell [i]. *)
Definition throw_error (i k : nat) (c : cell)
    (new_offset zero_offset real_score expected_score : simd_score)
  : diagnostic :=
  {| diag_i := i;
     diag_k := k;
     diag_real_score := real_score !!! k;
     diag_expected_score := expected_score !!! k;
     diag_cell := (c.1 !!! k, c.2 !!! k);
     diag_offset := new_offset !!! k;
     diag_zero_offset := zero_offset !!! k |}.

(** The body of the loop over the cells, for cell [i]. *)
Definition check_cell (new_offset zero_offset : simd_score) (i : nat)
    (c : cell) : option diagnostic :=
  let expected_score := rebase_value_wide new_offset zero_offset c.1 in
  let real_score := rebase_value new_offset zero_offset c.1 in
  match first_mismatch 0 expected_score real_score with
  | Some k =>
      Some (throw_error i k c new_offset zero_offset real_score expected_score)
  | None =>
      if decide (0 < i)%nat then
        let expected_score := rebase_value_wide new_offset zero_offset c.2 in
        let real_score := rebase_value new_offset zero_offset c.2 in
        match first_mismatch 0 expected_score real_score with
        | Some k =>
            Some (throw_error i k c new_offset zero_offset
                              real_score expected_score)
        | None => None
        end
      else None
  end.

(** The loop over the cells from index [i] on; the first exception ends it. *)
Fixpoint check_cells (new_offset zero_offset : simd_score) (i : nat)
    (cells : list cell) : option diagnostic :=
  match cells with
  | [] => None
  | c :: cells' =>
      match check_cell new_offset zero_offset i c with
      | Some d => Some d
      | None => check_cells new_offset zero_offset (S i) cells'
      end
  end.

(** The exception caught in [check_saturated_arithmetic], if any: its
    message is written to the error stream. *)
Definition check_saturated_arithmetic_error (v : dp_vector)
    (new_offset : simd_score) : option diagnostic :=
  check_cells new_offset (saturated_zero_offset v) 0 (base v).

(** The value [test] returned by [check_saturated_arithmetic]. *)
Definition check_saturated_arithmetic (v : dp_vector)
    (new_offset : simd_score) : bool :=
  match check_saturated_arithmetic_error v new_offset with
  | Some _ => false
  | None => true
  end.

(** Lane [k] of the stored value [x] is one in which the narrow rebase
    ([real]) and the widened one ([expected]) disagree. *)
Definition rebase_mismatch (new_offset zero_offset x : simd_score) (k : nat)
    (real expected : Z) : Prop :=
  rebase_value new_offset zero_offset x !! k = Some real ∧
  rebase_value_wide new_offset zero_offset x !! k = Some expected ∧
  real ≠ expected.

(** The stored values of cell [i] that the check compares: the best score
    of every cell, and the gap score of every cell but the first. *)
Definition checked_value (i : nat) (c : cell) (x : simd_score) : Prop :=
  x = c.1 ∨ (0 < i)%nat ∧ x = c.2.

(** [d] identifies a disagreement in [v]: its cell index, lane, narrow and
    widened result, the cell, the offset and the zero offset. *)
Definition reports (v : dp_vector) (new_offset : simd_score) (d : diagnostic)
  : Prop :=
  ∃ c x,
    base v !! diag_i d = Some c ∧
    checked_value (diag_i d) c x ∧
    rebase_mismatch new_offset (saturated_zero_offset v) x (diag_k d)
                    (diag_real_score d) (diag_expected_score d) ∧
    diag_cell d = (c.1 !!! diag_k d, c.2 !!! diag_k d) ∧
    diag_offset d = new_offset !!! diag_k d ∧
    diag_zero_offset d = saturated_zero_offset v !!! diag_k d.

(** The outcome of [update_offset]. *)
Inductive outcome : Type :=
| Rebased (v : dp_vector)
| AssertionFailed (d : diagnostic)
| OutOfRange.

(** [update_offset] on a vector of cells of kind [kind]; [ndebug] tells
    whether assertions are compiled out.  The pivot is read at index
    [is_row_cell_v<value_type>], converted to [size_t]. *)
Definition update_offset (ndebug : bool) (kind : cell_kind) (v : dp_vector)
  : outcome :=
  match base v !! Nat.b2n (is_row_cell_v kind) with
  | None => OutOfRange
  | Some pivot =>
      let new_offset := score pivot in
      if ndebug then Rebased (update_offset_impl v new_offset)
      else
        match check_saturated_arithmetic_error v new_offset with
        | Some d => AssertionFailed d
        | None => Rebased (update_offset_impl v new_offset)
        end
  end.

(** The logical score of cell [i] in lane [k]: stored [m] plus offset, in
    the wide type. *)
Definition logical_score (v : dp_vector) (i k : nat) : option Z :=
  c ← base v !! i;
  m ← c.1 !! k;
  o ← offset v !! k;
  Some (wrap32 (m + o)).

End Saturated.

(* ===================================================================== *)
(** ** The DP vector of the driver ([intermediate_dp_vector]) *)
(* ===================================================================== *)

Module Driver.
Import Score Affine Lane.

(** [std::ranges::for_each(range, fn)] with a function object that carries
    state from one call to the next. *)
Fixpoint for_each {S A : Type} (fn : S → A → S * A) (s : S) (range : list A)
  : list A :=
  match range with
  | [] => []
  | x :: range' => let '(s', x') := fn s x in x' :: for_each fn s' range'
  end.

(** [std::vector::resize]: new elements are value-initialised. *)
Definition resize {A : Type} (value_init : A) (n : nat) (v : list A) : list A :=
  take n v ++ replicate (n - length v) value_init.

(** [intermediate_dp_vector::initialise]: returns the initialised vector. *)
Definition initialise {S A sym : Type} (value_init : A) (_dp_vector : list A)
    (sequence : list sym) (init_strategy : S → A → S * A) (s0 : S) : list A :=
  let sequence_size := length sequence in
  for_each init_strategy s0 (resize value_init (sequence_size + 1) _dp_vector).

End Driver.

(* ===================================================================== *)
(** ** The SIMD DP vector ([simd_intermediate_dp_vector]) *)
(* ===================================================================== *)

Module SimdVector.
Import Lane Driver.

Section Initialise.
Context {sym S A : Type}.
(** The conversion of a sequence symbol to the scalar of a lane. *)
Variable to_lane : sym → Z.
(** A value-initialised SIMD score, as [resize] creates it; its length is
    the number of lanes. *)
Variable value_init_score : list Z.
(** A value-initialised cell of the underlying DP vector. *)
Variable value_init : A.

(** The [for_each] over the optional sequences: the largest size of a
    sequence that has a value. *)
Definition max_sequence_size (sequence : list (option (list sym))) : nat :=
  foldl (λ max_size optional_sequence,
           match optional_sequence with
           | Some s => max_size `max` length s
           | None => max_size
           end) 0 sequence.

(** The body [simd_sequence[j][i] = it[j]] with
    [it = begin( *(sequence[i]))], for the indices [j] of [indices]. *)
Fixpoint transfer_sequence (sequence : list (option (list sym))) (i : nat)
    (simd_sequence : list (list Z)) (indices : list nat)
  : option (list (list Z)) :=
  match indices with
  | [] => Some simd_sequence
  | j :: rest =>
      optional_sequence ← sequence !! i;
      s ← optional_sequence;
      x ← s !! j;
      lanes ← simd_sequence !! j;
      lanes' ← array_set lanes i (to_lane x);
      simd_sequence' ← array_set simd_sequence j lanes';
      transfer_sequence sequence i simd_sequence' rest
  end.

(** The loop over the sequences [i] of [sequences], each with the inner
    loop over [j < max_size]. *)
Fixpoint transfer_sequences (sequence : list (option (list sym)))
    (max_size : nat) (simd_sequence : list (list Z)) (sequences : list nat)
  : option (list (list Z)) :=
  match sequences with
  | [] => Some simd_sequence
  | i :: rest =>
      simd_sequence' ←
        transfer_sequence sequence i simd_sequence (seq 0 max_size);
      transfer_sequences sequence max_size simd_sequence' rest
  end.

(** [simd_intermediate_dp_vector::initialise]: returns the underlying DP
    vector as initialised and the SIMD sequence. *)
Definition simd_initialise (_underlying_dp_vector : list A)
    (sequence : list (option (list sym)))
    (init_strategy : S → A → S * A) (s0 : S)
  : option (list A * list (list Z)) :=
  let sequence_count := length sequence in
  let max_size := max_sequence_size sequence in
  let simd_sequence := resize value_init_score max_size [] in
  let dp_vector :=
    initialise value_init _underlying_dp_vector simd_sequence
               init_strategy s0 in
  simd_sequence' ←
    transfer_sequences sequence max_size simd_sequence (seq 0 sequence_count);
  Some (dp_vector, simd_sequence').

End Initialise.

End SimdVector.

(* ===================================================================== *)
(** ** The matrix score model ([cfg::score_model_matrix]) *)
(* ===================================================================== *)

Module ScoreModelMatrix.
Import Lane.

(** [static_cast<uint8_t>] of an alphabet symbol given by its character
    code. *)
Definition to_uint8 (symbol : Z) : nat := Z.to_nat (symbol mod 256).

Section Build.
Context {score_t : Type}.
(** A value-initialised score, as in [linear_matrix{}]. *)
Variable zero : score_t.

(** [std::ranges::copy_n(first, n, result)] writing [n] elements of [src]
    into [dst] from position [pos] on; [k] counts the elements copied. *)
Fixpoint copy_n (src : list score_t) (k n : nat) (dst : list score_t)
    (pos : nat) : option (list score_t) :=
  match n with
  | O => Some dst
  | S n' =>
      x ← src !! k;
      dst' ← array_set dst (pos + k) x;
      copy_n src (S k) n' dst' pos
  end.

(** The body of the loop for the ranks of [ranks]. *)
Fixpoint fill_tables (dimension : nat)
    (substitution_matrix : list (Z * list score_t))
    (linear_matrix : list score_t) (symbol_to_rank_map : list nat)
    (ranks : list nat) : option (list score_t * list nat) :=
  match ranks with
  | [] => Some (linear_matrix, symbol_to_rank_map)
  | rank :: rest =>
      entry ← substitution_matrix !! rank;
      symbol_to_rank_map' ←
        array_set symbol_to_rank_map (to_uint8 entry.1) rank;
      linear_matrix' ←
        copy_n entry.2 0 dimension linear_matrix (rank * dimension);
      fill_tables dimension substitution_matrix linear_matrix'
                  symbol_to_rank_map' rest
  end.

(** The tables built by [_fn::operator()] from a substitution matrix of
    dimension [dimension]: the linear matrix and the symbol-to-rank map.
    The loop counter [rank] is a [uint8_t], always smaller than a dimension
    above 255: the loop ends only for dimensions up to 255, and [None]
    stands for the other dimensions as well as for an access outside a
    container. *)
Definition build_tables (dimension : nat)
    (substitution_matrix : list (Z * list score_t))
  : option (list score_t * list nat) :=
  let linear_matrix := replicate (dimension * dimension) zero in
  let symbol_to_rank_map := replicate 256 255 in
  if decide (dimension ≤ 255) then
    fill_tables dimension substitution_matrix linear_matrix symbol_to_rank_map
                (seq 0 dimension)
  else None.

(** A substitution matrix of the type the function takes: [dimension] rows
    of [dimension] scores. *)
Definition well_formed (dimension : nat)
    (substitution_matrix : list (Z * list score_t)) : Prop :=
  length substitution_matrix = dimension ∧
  ∀ rank entry, substitution_matrix !! rank = Some entry →
                length entry.2 = dimension.

(** [rank] is the last of the ranks [first, first + n) whose symbol has the
    byte [b]. *)
Definition last_rank_of (M : list (Z * list score_t))
    (first n b rank : nat) : Prop :=
  first ≤ rank < first + n ∧
  (∃ entry, M !! rank = Some entry ∧ to_uint8 entry.1 = b) ∧
  ∀ rank' entry', rank < rank' < first + n → M !! rank' = Some entry' →
                  to_uint8 entry'.1 ≠ b.

(** No symbol of the ranks [first, first + n) has the byte [b]. *)
Definition no_rank_of (M : list (Z * list score_t)) (first n b : nat)
  : Prop :=
  ∀ rank entry, first ≤ rank < first + n → M !! rank = Some entry →
                to_uint8 entry.1 ≠ b.

End Build.

End ScoreModelMatrix.

(* ===================================================================== *)
(** ** Exact kernel steps *)
(* ===================================================================== *)

Module KernelRange.
Import Score.

Local Open Scope Z_scope.

(** [x] is representable in the narrow lane type. *)
Definition narrow (x : Z) : Prop := narrow_min ≤ x ≤ narrow_max.

(** No saturating sum of a kernel step saturates in a lane with diagonal
    [d], cached gap score [h], stored gap score [v], substitution score [s]
    and gap scores [go] and [ge]. *)
Definition exact_step (d h v s go ge : Z) : Prop :=
  narrow (d + s) ∧
  narrow (go + ge) ∧
  narrow (Z.max (Z.max (d + s) h) v + (go + ge)) ∧
  narrow (h + ge) ∧
  narrow (v + ge).

End KernelRange.

(* ===================================================================== *)
(** * Properties *)
(* ===================================================================== *)

(** ** Lane-wise arithmetic *)

Section ScoreFacts.
Import Score.
Local Open Scope Z_scope.

Lemma saturate_id x : narrow_min ≤ x ≤ narrow_max → saturate x = x.
Proof. unfold saturate. lia. Qed.

Lemma wrap32_add_r a b : wrap32 (a + wrap32 b) = wrap32 (a + b).
Proof.
  unfold wrap32.
  replace (a + ((b + 2 ^ 31) mod 2 ^ 32 - 2 ^ 31) + 2 ^ 31)
    with (a + (b + 2 ^ 31) mod 2 ^ 32) by lia.
  rewrite Zplus_mod_idemp_r. f_equal. f_equal. lia.
Qed.

Lemma lookup_adds x y k a b :
  x !! k = Some a → y !! k = Some b →
  adds x y !! k = Some (saturate (a + b)).
Proof. intros Hx Hy. unfold adds. by rewrite lookup_zip_with, Hx, Hy. Qed.

Lemma lookup_subs x y k a b :
  x !! k = Some a → y !! k = Some b →
  subs x y !! k = Some (saturate (a - b)).
Proof. intros Hx Hy. unfold subs. by rewrite lookup_zip_with, Hx, Hy. Qed.

Lemma lookup_maxs x y k a b :
  x !! k = Some a → y !! k = Some b → maxs x y !! k = Some (Z.max a b).
Proof. intros Hx Hy. unfold maxs. by rewrite lookup_zip_with, Hx, Hy. Qed.

Lemma lookup_wide_add x y k a b :
  x !! k = Some a → y !! k = Some b →
  wide_add x y !! k = Some (wrap32 (a + b)).
Proof. intros Hx Hy. unfold wide_add. by rewrite lookup_zip_with, Hx, Hy. Qed.

Lemma lookup_wide_sub x y k a b :
  x !! k = Some a → y !! k = Some b →
  wide_sub x y !! k = Some (wrap32 (a - b)).
Proof. intros Hx Hy. unfold wide_sub. by rewrite lookup_zip_with, Hx, Hy. Qed.

End ScoreFacts.

(** ** The affine recurrence *)

Section KernelFacts.
Import Score Affine.
Local Open Scope Z_scope.

(** C2. In every SIMD lane [k], [compute_cell] on narrow saturating scores
    yields [m_new = max (diag_in + s, gap_cache, gap_prev)] as the cell's
    best score, [max (gap_prev + ge, m_new + (go + ge))] as the cell's gap
    score, [max (gap_cache + ge, m_new + (go + ge))] as the cache's gap
    score, and the cell's previous best score as the cache's diagonal; every
    sum is a saturating sum of the narrow type. *)
Theorem compute_cell_affine_recurrence {seq1_val_t seq2_val_t : Type}
    (score : seq1_val_t → seq2_val_t → simd_score)
    (gap : gap_model simd_score) (cache column_cell : simd_score * simd_score)
    (seq1_val : seq1_val_t) (seq2_val : seq2_val_t) (k : nat)
    (diag_in gap_cache m_prev gap_prev s go ge : Z) :
  cache.1 !! k = Some diag_in →
  cache.2 !! k = Some gap_cache →
  column_cell.1 !! k = Some m_prev →
  column_cell.2 !! k = Some gap_prev →
  score seq1_val seq2_val !! k = Some s →
  gap_open_score gap !! k = Some go →
  gap_extension_score gap !! k = Some ge →
  let result :=
    compute_cell (ops := saturated_simd_ops) score gap cache column_cell
                 seq1_val seq2_val in
  let m_new := Z.max (Z.max (saturate (diag_in + s)) gap_cache) gap_prev in
  let opened := saturate (m_new + saturate (go + ge)) in
  result.2.1 !! k = Some m_new ∧
  result.2.2 !! k = Some (Z.max (saturate (gap_prev + ge)) opened) ∧
  result.1.2 !! k = Some (Z.max (saturate (gap_cache + ge)) opened) ∧
  result.1.1 !! k = Some m_prev ∧
  result.1.1 = column_cell.1.
Proof.
  intros Hd Hh Hm Hv Hs Hgo Hge.
  destruct cache as [c1 c2], column_cell as [next_diagonal horizontal_score].
  simpl in *.
  assert (Hnew : maxs (maxs (adds c1 (score seq1_val seq2_val)) c2)
                      horizontal_score !! k
                 = Some (Z.max (Z.max (saturate (diag_in + s)) gap_cache)
                               gap_prev)).
  { repeat first [ apply lookup_maxs | apply lookup_adds ]; done. }
  assert (Hopen : adds (maxs (maxs (adds c1 (score seq1_val seq2_val)) c2)
                             horizontal_score)
                       (adds (gap_open_score gap) (gap_extension_score gap))
                    !! k
                  = Some (saturate
                            (Z.max (Z.max (saturate (diag_in + s)) gap_cache)
                                   gap_prev + saturate (go + ge)))).
  { apply lookup_adds; [done | by apply lookup_adds]. }
  repeat split; try done.
  - apply lookup_maxs; [by apply lookup_adds | done].
  - apply lookup_maxs; [by apply lookup_adds | done].
Qed.

Lemma compute_cell_affine_recurrence_witness :
  let score := λ (a b : bool), if Bool.eqb a b then [4; 4] else [-2; -2] in
  let gap := {| gap_open_score := [-4; -4];
                gap_extension_score := [-1; -1] |} in
  let result :=
    compute_cell (ops := saturated_simd_ops) score gap
                 ([0; 125], [-5; -5]) ([-5; 3], [-5; 126]) true true in
  result.2.1 !! 1%nat = Some 127 ∧
  result.2.2 !! 1%nat = Some 125 ∧
  result.1.2 !! 1%nat = Some 122 ∧
  result.1.1 !! 1%nat = Some 3 ∧
  result.1.1 = [-5; 3].
Proof.
  intros score gap.
  apply (compute_cell_affine_recurrence score gap
           ([0; 125], [-5; -5]) ([-5; 3], [-5; 126]) true true 1
           125 (-5) 3 126 4 (-4) (-1)); reflexivity.
Defined.

End KernelFacts.

(** ** Offset rebasing *)

Section RebaseFacts.
Import Score Saturated.
Local Open Scope Z_scope.

Lemma lookup_rebase_value new_offset zero_offset x k m d z :
  x !! k = Some m → new_offset !! k = Some d → zero_offset !! k = Some z →
  rebase_value new_offset zero_offset x !! k
  = Some (saturate (saturate (m - d) + z)).
Proof.
  intros Hx Hd Hz. unfold rebase_value.
  apply lookup_adds; [by apply lookup_subs | done].
Qed.

Lemma lookup_rebase_value_wide new_offset zero_offset x k m d z :
  x !! k = Some m → new_offset !! k = Some d → zero_offset !! k = Some z →
  rebase_value_wide new_offset zero_offset x !! k
  = Some (wrap32 (wrap32 (m - d) + z)).
Proof.
  intros Hx Hd Hz. unfold rebase_value_wide, widen.
  apply lookup_wide_add; [by apply lookup_wide_sub | done].
Qed.

(** The logical score of a cell after [update_offset_impl], when the narrow
    rebase of its best score does not saturate. *)
Lemma update_offset_impl_logical_score v new_offset i k c m d z o :
  base v !! i = Some c →
  c.1 !! k = Some m →
  new_offset !! k = Some d →
  saturated_zero_offset v !! k = Some z →
  offset v !! k = Some o →
  narrow_min ≤ m - d ≤ narrow_max →
  narrow_min ≤ m - d + z ≤ narrow_max →
  logical_score (update_offset_impl v new_offset) i k = Some (wrap32 (m + o)).
Proof.
  intros Hc Hm Hd Hz Ho Hsub Hadd.
  unfold logical_score, update_offset_impl, dp_vector_update_offset, reset.
  simpl. rewrite list_lookup_fmap, Hc. simpl.
  rewrite (lookup_rebase_value _ _ _ _ m d z) by done. simpl.
  unfold widen.
  rewrite (lookup_wide_sub _ _ _ (wrap32 (o + d)) z);
    [| by apply lookup_wide_add | done].
  simpl. f_equal.
  rewrite (saturate_id (m - d)) by done.
  rewrite (saturate_id (m - d + z)) by done.
  rewrite wrap32_add_r.
  replace (m - d + z + (wrap32 (o + d) - z)) with (m - d + wrap32 (o + d))
    by lia.
  rewrite wrap32_add_r. f_equal. lia.
Qed.

Lemma update_offset_Rebased ndebug kind v v' :
  update_offset ndebug kind v = Rebased v' →
  ∃ pivot, base v !! Nat.b2n (is_row_cell_v kind) = Some pivot ∧
           v' = update_offset_impl v (score pivot).
Proof.
  unfold update_offset.
  destruct (base v !! Nat.b2n (is_row_cell_v kind)) as [pivot|]; [|done].
  intros H. exists pivot. split; [done|].
  destruct ndebug; [congruence|].
  destruct (check_saturated_arithmetic_error v (score pivot)); congruence.
Qed.

(** C1. A rebase step by [update_offset] preserves the logical score
    [cells[i].m + offset], evaluated in the wide type, of every cell [i] in
    every lane [k] in which neither narrow operation of the rebase of
    [cells[i].m] (the subtraction of the pivot score, the addition of the
    saturated zero offset) saturates. *)
Theorem rebase_preserves_logical_score ndebug kind v v' pivot i k c m d z o :
  update_offset ndebug kind v = Rebased v' →
  base v !! Nat.b2n (is_row_cell_v kind) = Some pivot →
  base v !! i = Some c →
  c.1 !! k = Some m →
  score pivot !! k = Some d →
  saturated_zero_offset v !! k = Some z →
  offset v !! k = Some o →
  narrow_min ≤ m - d ≤ narrow_max →
  narrow_min ≤ m - d + z ≤ narrow_max →
  logical_score v i k = Some (wrap32 (m + o)) ∧
  logical_score v' i k = logical_score v i k.
Proof.
  intros Hup Hp Hc Hm Hd Hz Ho Hsub Hadd.
  assert (Hv : logical_score v i k = Some (wrap32 (m + o))).
  { unfold logical_score. rewrite Hc. simpl. rewrite Hm. simpl.
    by rewrite Ho. }
  split; [done|]. rewrite Hv.
  apply update_offset_Rebased in Hup as (pivot' & Hp' & ->).
  assert (pivot' = pivot) as -> by congruence.
  by eapply update_offset_impl_logical_score.
Qed.

Lemma rebase_preserves_logical_score_witness :
  let v := {| base := [([100; -20], [90; -30]); ([40; -128], [30; -128])];
              offset := [1000; 2147483647];
              saturated_zero_offset := [0; 0] |} in
  let v' := update_offset_impl v [100; -20] in
  logical_score v 1 1 = Some (wrap32 (-128 + 2147483647)) ∧
  logical_score v' 1 1 = logical_score v 1 1.
Proof.
  intros v v'.
  apply (rebase_preserves_logical_score false column_cell v v'
           ([100; -20], [90; -30]) 1 1 ([40; -128], [30; -128])
           (-128) (-20) 0 2147483647);
    first [ reflexivity | vm_compute; split; discriminate ].
Defined.

(** *** The saturation check *)

Lemma first_mismatch_Some expected real k0 k :
  first_mismatch k0 expected real = Some k →
  ∃ j e r, k = (k0 + j)%nat ∧ expected !! j = Some e ∧ real !! j = Some r ∧
           e ≠ r.
Proof.
  revert real k0. induction expected as [|e expected IH];
    intros [|r real] k0 H; simpl in H; try done.
  destruct (decide (e ≠ r)) as [Hne|_].
  - injection H as <-. exists 0%nat, e, r. by rewrite Nat.add_0_r.
  - apply IH in H as (j & e' & r' & -> & He & Hr & Hne).
    exists (S j), e', r'. split; [lia | done].
Qed.

Lemma first_mismatch_None expected real k0 j e r :
  first_mismatch k0 expected real = None →
  expected !! j = Some e → real !! j = Some r → e = r.
Proof.
  revert real k0 j. induction expected as [|e' expected IH];
    intros [|r' real] k0 j H He Hr; simpl in H; try done.
  destruct (decide (e' ≠ r')) as [|Heq]; [done|].
  destruct j as [|j]; simpl in He, Hr.
  - apply dec_stable in Heq. congruence.
  - by eapply IH.
Qed.

Lemma check_cell_Some new_offset zero_offset i c d :
  check_cell new_offset zero_offset i c = Some d →
  diag_i d = i ∧
  ∃ x, checked_value i c x ∧
    rebase_mismatch new_offset zero_offset x (diag_k d)
                    (diag_real_score d) (diag_expected_score d) ∧
    diag_cell d = (c.1 !!! diag_k d, c.2 !!! diag_k d) ∧
    diag_offset d = new_offset !!! diag_k d ∧
    diag_zero_offset d = zero_offset !!! diag_k d.
Proof.
  unfold check_cell.
  destruct (first_mismatch 0 _ (rebase_value _ _ c.1)) as [k|] eqn:H1.
  - intros [= <-]. simpl. split; [done|]. exists c.1.
    apply first_mismatch_Some in H1 as (j & e & r & -> & He & Hr & Hne).
    simpl. split; [by left|]. repeat split; try done.
    + by rewrite (list_lookup_total_correct _ _ _ Hr).
    + by rewrite (list_lookup_total_correct _ _ _ He).
    + rewrite (list_lookup_total_correct _ _ _ Hr).
      rewrite (list_lookup_total_correct _ _ _ He). congruence.
  - destruct (decide (0 < i)%nat) as [Hi|]; [|done].
    destruct (first_mismatch 0 _ (rebase_value _ _ c.2)) as [k|] eqn:H2;
      [|done].
    intros [= <-]. simpl. split; [done|]. exists c.2.
    apply first_mismatch_Some in H2 as (j & e & r & -> & He & Hr & Hne).
    simpl. split; [by right|]. repeat split; try done.
    + by rewrite (list_lookup_total_correct _ _ _ Hr).
    + by rewrite (list_lookup_total_correct _ _ _ He).
    + rewrite (list_lookup_total_correct _ _ _ Hr).
      rewrite (list_lookup_total_correct _ _ _ He). congruence.
Qed.

Lemma check_cell_None new_offset zero_offset i c x k real expected :
  check_cell new_offset zero_offset i c = None →
  checked_value i c x →
  ¬ rebase_mismatch new_offset zero_offset x k real expected.
Proof.
  unfold check_cell. intros H Hx (Hr & He & Hne).
  destruct (first_mismatch 0 _ (rebase_value _ _ c.1)) as [?|] eqn:H1;
    [done|].
  destruct Hx as [->|[Hi ->]].
  - apply Hne. symmetry. by eapply first_mismatch_None.
  - destruct (decide (0 < i)%nat); [|done].
    destruct (first_mismatch 0 _ (rebase_value _ _ c.2)) as [?|] eqn:H2;
      [done|].
    apply Hne. symmetry. by eapply first_mismatch_None.
Qed.

Lemma check_cells_Some new_offset zero_offset cells i0 d :
  check_cells new_offset zero_offset i0 cells = Some d →
  ∃ j c, diag_i d = (i0 + j)%nat ∧ cells !! j = Some c ∧
         check_cell new_offset zero_offset (i0 + j) c = Some d ∧
         ∀ j' c', (j' < j)%nat → cells !! j' = Some c' →
                  check_cell new_offset zero_offset (i0 + j') c' = None.
Proof.
  revert i0. induction cells as [|c cells IH]; intros i0 H; [done|].
  simpl in H.
  destruct (check_cell new_offset zero_offset i0 c) as [d'|] eqn:Hc.
  - injection H as ->. exists 0%nat, c. rewrite Nat.add_0_r.
    repeat split; try done.
    + by apply check_cell_Some in Hc as [? _].
    + intros ? ? ?. lia.
  - apply IH in H as (j & c' & Hi & Hj & Hd & Hbefore).
    exists (S j), c'. replace (i0 + S j)%nat with (S i0 + j)%nat by lia.
    repeat split; try done.
    intros [|j'] c'' Hlt Hc''; simpl in Hc''.
    + rewrite Nat.add_0_r. congruence.
    + replace (i0 + S j')%nat with (S i0 + j')%nat by lia.
      apply Hbefore; [lia | done].
Qed.

Lemma check_cells_None new_offset zero_offset cells i0 j c :
  check_cells new_offset zero_offset i0 cells = None →
  cells !! j = Some c →
  check_cell new_offset zero_offset (i0 + j) c = None.
Proof.
  revert i0 j. induction cells as [|c' cells IH]; intros i0 j H Hj; [done|].
  simpl in H.
  destruct (check_cell new_offset zero_offset i0 c') eqn:Hc; [done|].
  destruct j as [|j]; simpl in Hj.
  - rewrite Nat.add_0_r. congruence.
  - replace (i0 + S j)%nat with (S i0 + j)%nat by lia. by apply IH.
Qed.

(** The check reports an error exactly for the disagreements it looks at. *)
Lemma check_saturated_arithmetic_error_fires v new_offset i c x k real expected :
  base v !! i = Some c →
  checked_value i c x →
  rebase_mismatch new_offset (saturated_zero_offset v) x k real expected →
  ∃ d, check_saturated_arithmetic_error v new_offset = Some d ∧
       reports v new_offset d ∧ (diag_i d ≤ i)%nat.
Proof.
  intros Hc Hx Hmis. unfold check_saturated_arithmetic_error.
  destruct (check_cells new_offset (saturated_zero_offset v) 0 (base v))
    as [d|] eqn:H.
  - exists d. split; [done|].
    apply check_cells_Some in H as (j & c' & Hi & Hj & Hd & Hbefore).
    simpl in Hi, Hd. apply check_cell_Some in Hd as (_ & x' & Hx' & Hm' & ?).
    split.
    + exists c', x'. rewrite Hi. done.
    + rewrite Hi. destruct (decide (j ≤ i)%nat) as [|Hlt]; [done|].
      exfalso. assert (Hnone := Hbefore i c ltac:(lia) Hc). simpl in Hnone.
      by eapply check_cell_None.
  - exfalso. eapply check_cells_None in H; [|done]. simpl in H.
    by eapply check_cell_None.
Qed.

(** C3 (amended). With assertions enabled, [update_offset] fails with a
    diagnostic whenever the narrow rebase differs from the widened one in
    some lane of the best score of some cell, or of the gap score of some
    cell other than the first; the diagnostic identifies a cell index, a
    lane, the narrow and the widened result there, the cell, the offset and
    the zero offset. *)
Theorem saturation_error_fires kind v pivot i c x k real expected :
  base v !! Nat.b2n (is_row_cell_v kind) = Some pivot →
  base v !! i = Some c →
  checked_value i c x →
  rebase_mismatch (score pivot) (saturated_zero_offset v) x k real expected →
  ∃ d, update_offset false kind v = AssertionFailed d ∧
       check_saturated_arithmetic v (score pivot) = false ∧
       reports v (score pivot) d ∧ (diag_i d ≤ i)%nat.
Proof.
  intros Hp Hc Hx Hmis.
  destruct (check_saturated_arithmetic_error_fires _ _ _ _ _ _ _ _ Hc Hx Hmis)
    as (d & Hd & Hrep & Hle).
  exists d. unfold update_offset, check_saturated_arithmetic.
  by rewrite Hp, Hd.
Qed.

Lemma saturation_error_fires_witness :
  let v := {| base := [([10], [-128]); ([-120], [-128])];
              offset := [0]; saturated_zero_offset := [0] |} in
  ∃ d, update_offset false column_cell v = AssertionFailed d ∧
       check_saturated_arithmetic v [10] = false ∧
       reports v [10] d ∧ (diag_i d ≤ 1)%nat.
Proof.
  intros v.
  apply (saturation_error_fires column_cell v ([10], [-128]) 1
           ([-120], [-128]) [-120] 0 (-128) (-130)).
  - reflexivity.
  - reflexivity.
  - left. reflexivity.
  - vm_compute. repeat split; discriminate.
Defined.

(** C3, as stated, fails: the gap score of the first cell is not checked.
    Here its narrow rebase saturates ([-128] instead of [-138]), yet the
    check succeeds and the vector is rebased. *)
Lemma first_cell_gap_score_unchecked :
  let v := {| base := [([10], [-128])];
              offset := [0]; saturated_zero_offset := [0] |} in
  base v !! 0%nat = Some ([10], [-128]) ∧
  rebase_mismatch [10] (saturated_zero_offset v) [-128] 0 (-128) (-138) ∧
  check_saturated_arithmetic v [10] = true ∧
  update_offset false column_cell v = Rebased (update_offset_impl v [10]).
Proof. vm_compute. repeat split; discriminate. Qed.

(** *** A checked rebase *)

Lemma wrap32_add_l a b : wrap32 (wrap32 a + b) = wrap32 (a + b).
Proof. rewrite (Z.add_comm (wrap32 a)), wrap32_add_r. f_equal. lia. Qed.

(** Where the narrow rebase of a best score agrees with the widened one, the
    logical score is the same after [update_offset_impl]. *)
Lemma agreeing_rebase_logical_score v new_offset i k c m d z o :
  base v !! i = Some c →
  c.1 !! k = Some m →
  new_offset !! k = Some d →
  saturated_zero_offset v !! k = Some z →
  offset v !! k = Some o →
  saturate (saturate (m - d) + z) = wrap32 (wrap32 (m - d) + z) →
  logical_score (update_offset_impl v new_offset) i k = Some (wrap32 (m + o)).
Proof.
  intros Hc Hm Hd Hz Ho Hagree.
  unfold logical_score, update_offset_impl, dp_vector_update_offset, reset.
  simpl. rewrite list_lookup_fmap, Hc. simpl.
  rewrite (lookup_rebase_value _ _ _ _ m d z) by done. simpl.
  unfold widen.
  rewrite (lookup_wide_sub _ _ _ (wrap32 (o + d)) z);
    [| by apply lookup_wide_add | done].
  simpl. f_equal. rewrite Hagree.
  rewrite wrap32_add_r, wrap32_add_l.
  replace (wrap32 (m - d) + z + (wrap32 (o + d) - z))
    with (wrap32 (m - d) + wrap32 (o + d)) by lia.
  rewrite wrap32_add_r, wrap32_add_l. f_equal. lia.
Qed.

(** With assertions enabled, a rebase that completes has preserved the
    logical score of every cell in every lane. *)
Lemma checked_rebase_logical_score kind v v' pivot i k c m d z o :
  update_offset false kind v = Rebased v' →
  base v !! Nat.b2n (is_row_cell_v kind) = Some pivot →
  base v !! i = Some c →
  c.1 !! k = Some m →
  score pivot !! k = Some d →
  saturated_zero_offset v !! k = Some z →
  offset v !! k = Some o →
  logical_score v' i k = logical_score v i k.
Proof.
  intros Hup Hp Hc Hm Hd Hz Ho.
  assert (Hv : logical_score v i k = Some (wrap32 (m + o))).
  { unfold logical_score. rewrite Hc. simpl. rewrite Hm. simpl.
    by rewrite Ho. }
  rewrite Hv. unfold update_offset in Hup. rewrite Hp in Hup.
  destruct (check_saturated_arithmetic_error v (score pivot)) eqn:Hcheck;
    [done|].
  injection Hup as <-.
  eapply agreeing_rebase_logical_score; [done..|].
  destruct (decide (saturate (saturate (m - d) + z)
                    = wrap32 (wrap32 (m - d) + z))) as [|Hne]; [done|].
  exfalso. unfold check_saturated_arithmetic_error in Hcheck.
  eapply check_cells_None in Hcheck; [|done].
  eapply (check_cell_None _ _ _ _ c.1 k); [done | by left |].
  split_and!; [| |done].
  - by apply lookup_rebase_value.
  - by apply lookup_rebase_value_wide.
Qed.

(** A saturating rebase does change the logical score: without the
    assertion, cell 1 below moves from [-128] to [-28]. *)
Lemma saturating_rebase_logical_score :
  let v := {| base := [([100], [0]); ([-128], [0])];
              offset := [0]; saturated_zero_offset := [0] |} in
  logical_score v 1 0 = Some (-128) ∧
  update_offset true column_cell v = Rebased (update_offset_impl v [100]) ∧
  logical_score (update_offset_impl v [100]) 1 0 = Some (-28).
Proof. done. Qed.

(** *** The pivot *)

(** C4 (amended). The rebase offset is the best score of the cell at index
    [is_row_cell_v<value_type>]: index 0 of a vector of column cells, index 1
    of a vector of row cells. *)
Theorem pivot_index ndebug kind v v' :
  update_offset ndebug kind v = Rebased v' →
  ∃ pivot,
    base v !! (match kind with column_cell => 0 | row_cell => 1 end)%nat
      = Some pivot ∧
    v' = update_offset_impl v (score pivot).
Proof.
  intros H. apply update_offset_Rebased in H as (pivot & Hp & ->).
  exists pivot. by destruct kind.
Qed.

Lemma pivot_index_witness :
  let v := {| base := [([5], [0]); ([9], [0])];
              offset := [0]; saturated_zero_offset := [0] |} in
  ∃ pivot, base v !! 1%nat = Some pivot ∧
           update_offset_impl v [9] = update_offset_impl v (score pivot).
Proof.
  intros v.
  apply (pivot_index false row_cell v (update_offset_impl v [9])).
  reflexivity.
Defined.

(** C4, as stated, fails on a row vector: the offset is the best score of
    cell 1, not of cell 0. *)
Lemma row_pivot_is_not_cell_0 :
  let v := {| base := [([5], [0]); ([9], [0])];
              offset := [0]; saturated_zero_offset := [0] |} in
  base v !! 0%nat = Some ([5], [0]) ∧
  update_offset false row_cell v = Rebased (update_offset_impl v [9]) ∧
  update_offset true row_cell v = Rebased (update_offset_impl v [9]) ∧
  update_offset_impl v [9] ≠ update_offset_impl v (score ([5], [0])).
Proof. vm_compute. repeat split; discriminate. Qed.

End RebaseFacts.

(** ** Lanes *)

Section LaneFacts.
Import Lane.
Context {row_cell column_cell : Type}.
Implicit Types (cache cached row_vector : list row_cell) (x : row_cell).
Implicit Types (blk : dp_block row_cell column_cell).

Lemma array_set_Some {A : Type} (a : list A) i y :
  i < length a → array_set a i y = Some (<[i:=y]> a).
Proof. intros H. unfold array_set. by rewrite decide_True. Qed.

Lemma array_set_None {A : Type} (a : list A) i y :
  length a ≤ i → array_set a i y = None.
Proof. intros H. unfold array_set. rewrite decide_False; [done | lia]. Qed.

Lemma size_t_sub_le a b : b ≤ a → size_t_sub a b = a - b.
Proof. intros H. unfold size_t_sub. by rewrite decide_True. Qed.

(** The effect of a bulk load over the indices [s, s + n). *)
Lemma unroll_load_seq n s cache row_vector offset :
  s + n ≤ length cache →
  offset + s + n ≤ length row_vector →
  ∃ cache',
    unroll_load cache row_vector offset (seq s n) = Some cache' ∧
    length cache' = length cache ∧
    (∀ j, s ≤ j < s + n → cache' !! j = row_vector !! (offset + j)) ∧
    (∀ j, ¬ (s ≤ j < s + n) → cache' !! j = cache !! j).
Proof.
  revert s cache. induction n as [|n IH]; intros s cache Hc Hr; simpl.
  - exists cache. split_and!; [done | done | intros j Hj; lia | done].
  - destruct (lookup_lt_is_Some_2 row_vector (offset + s)) as [x Hx]; [lia|].
    rewrite Hx. simpl. rewrite array_set_Some by lia. simpl.
    destruct (IH (S s) (<[s:=x]> cache)) as (cache' & Hl & Hlen & Hin & Hout).
    { rewrite length_insert. lia. }
    { lia. }
    exists cache'. rewrite length_insert in Hlen.
    split_and!; [done | done | |].
    + intros j Hj. destruct (decide (j = s)) as [->|Hne].
      * rewrite Hout by lia. rewrite list_lookup_insert_eq by lia. done.
      * apply Hin. lia.
    + intros j Hj. rewrite Hout by lia.
      apply list_lookup_insert_ne. lia.
Qed.


(** The effect of a bulk store over the indices [s, s + n). *)
Lemma unroll_store_seq n s row_vector cache offset :
  s + n ≤ length cache →
  offset + s + n ≤ length row_vector →
  ∃ row_vector',
    unroll_store row_vector cache offset (seq s n) = Some row_vector' ∧
    length row_vector' = length row_vector ∧
    (∀ j, s ≤ j < s + n → row_vector' !! (offset + j) = cache !! j) ∧
    (∀ i, ¬ (offset + s ≤ i < offset + s + n) →
          row_vector' !! i = row_vector !! i).
Proof.
  revert s row_vector. induction n as [|n IH]; intros s row_vector Hc Hr; simpl.
  - exists row_vector. split_and!; [done | done | intros j Hj; lia | done].
  - destruct (lookup_lt_is_Some_2 cache s) as [x Hx]; [lia|].
    rewrite Hx. simpl. rewrite array_set_Some by lia. simpl.
    destruct (IH (S s) (<[offset + s:=x]> row_vector))
      as (row' & Hl & Hlen & Hin & Hout).
    { lia. }
    { rewrite length_insert. lia. }
    exists row'. rewrite length_insert in Hlen.
    split_and!; [done | done | |].
    + intros j Hj. destruct (decide (j = s)) as [->|Hne].
      * rewrite Hout by lia. rewrite list_lookup_insert_eq by lia. done.
      * apply Hin. lia.
    + intros i Hi. rewrite Hout by lia.
      apply list_lookup_insert_ne. lia.
Qed.

(** The run-time loops of the last lane perform the same transfers as the
    unrolled ones over [i, i + count). *)
Lemma last_lane_load_unroll count i cache row_vector offset :
  last_lane_load cache row_vector offset i count
  = unroll_load cache row_vector offset (seq i count).
Proof.
  revert i cache. induction count as [|count IH]; intros i cache; [done|].
  simpl. rewrite (Nat.add_comm i offset).
  destruct (row_vector !! (offset + i)) as [x|]; [|done]. simpl.
  destruct (array_set cache i x); [|done]. simpl. apply IH.
Qed.

Lemma last_lane_store_unroll count i row_vector cache offset :
  last_lane_store row_vector cache offset i count
  = unroll_store row_vector cache offset (seq i count).
Proof.
  revert i row_vector. induction count as [|count IH]; intros i row_vector;
    [done|].
  simpl. rewrite (Nat.add_comm i offset).
  destruct (cache !! i) as [x|]; [|done]. simpl.
  destruct (array_set row_vector (offset + i) x); [|done]. simpl. apply IH.
Qed.

(** A load whose first row index lies outside the row is undefined. *)
Lemma unroll_load_outside n s cache row_vector offset :
  0 < n →
  length row_vector ≤ offset + s →
  unroll_load cache row_vector offset (seq s n) = None.
Proof.
  intros Hn Hr. destruct n as [|n]; [lia|]. simpl.
  by rewrite (lookup_ge_None_2 row_vector (offset + s)).
Qed.

(** Closed forms of a load into, and a store from, the cache prefix. *)
Lemma unroll_load_prefix n cache row_vector offset :
  n ≤ length cache →
  offset + n ≤ length row_vector →
  unroll_load cache row_vector offset (seq 0 n)
  = Some (take n (drop offset row_vector) ++ drop n cache).
Proof.
  intros Hc Hr.
  destruct (unroll_load_seq n 0 cache row_vector offset)
    as (cache' & -> & Hlen & Hin & Hout); [lia..|].
  f_equal. apply list_eq. intros j.
  destruct (decide (j < n)) as [Hj|Hj].
  - rewrite Hin by lia. rewrite lookup_app_l.
    + rewrite lookup_take_lt by done. by rewrite lookup_drop.
    + rewrite length_take, length_drop. lia.
  - rewrite Hout by lia. rewrite lookup_app_r.
    + rewrite length_take, length_drop, lookup_drop. f_equal. lia.
    + rewrite length_take, length_drop. lia.
Qed.

Lemma unroll_store_prefix n row_vector cache offset :
  n ≤ length cache →
  offset + n ≤ length row_vector →
  unroll_store row_vector cache offset (seq 0 n)
  = Some (take offset row_vector ++ take n cache
          ++ drop (offset + n) row_vector).
Proof.
  intros Hc Hr.
  destruct (unroll_store_seq n 0 row_vector cache offset)
    as (row' & -> & Hlen & Hin & Hout); [lia..|].
  f_equal. apply list_eq. intros i.
  destruct (decide (i < offset)) as [Hlo|Hlo].
  - rewrite Hout by lia. rewrite lookup_app_l by (rewrite length_take; lia).
    by rewrite lookup_take_lt.
  - rewrite lookup_app_r by (rewrite length_take; lia).
    rewrite length_take, Nat.min_l by lia.
    destruct (decide (i < offset + n)) as [Hhi|Hhi].
    + replace i with (offset + (i - offset)) at 1 by lia.
      rewrite Hin by lia.
      rewrite lookup_app_l by (rewrite length_take; lia).
      by rewrite lookup_take_lt by lia.
    + rewrite Hout by lia.
      rewrite lookup_app_r by (rewrite length_take; lia).
      rewrite length_take, Nat.min_l by lia.
      rewrite lookup_drop. f_equal. lia.
Qed.

(** Loading [n] cells and storing them back leaves the row as it was. *)
Lemma load_store_round_trip n cache row_vector offset :
  n ≤ length cache →
  offset + n ≤ length row_vector →
  ∃ cache',
    unroll_load cache row_vector offset (seq 0 n) = Some cache' ∧
    unroll_store row_vector cache' offset (seq 0 n) = Some row_vector.
Proof.
  intros Hc Hr.
  destruct (unroll_load_seq n 0 cache row_vector offset)
    as (cache' & Hload & Hlen & Hin & _); [lia..|].
  exists cache'. split; [done|].
  destruct (unroll_store_seq n 0 row_vector cache' offset)
    as (row' & -> & Hlen' & Hin' & Hout'); [lia..|].
  f_equal. apply list_eq. intros i.
  destruct (decide (offset ≤ i < offset + n)) as [Hi|Hi].
  - replace i with (offset + (i - offset)) by lia.
    rewrite Hin' by lia. apply Hin. lia.
  - apply Hout'. lia.
Qed.

(** The constructor and the destructor of a lane that is not the last. *)
Lemma lane_construct_full (default_cell : row_cell) lane_width blk
    row_offset :
  row_offset + 1 + lane_width ≤ length (row blk) →
  lane_construct default_cell lane_width false blk row_offset
  = Some {| _dp_block := blk;
            _cached_row := take lane_width (drop (row_offset + 1) (row blk));
            _row_offset := row_offset + 1 |}.
Proof.
  intros Hfit. unfold lane_construct. simpl.
  rewrite unroll_load_prefix; [|by rewrite length_replicate | lia].
  simpl. by rewrite drop_replicate, Nat.sub_diag, app_nil_r.
Qed.

Lemma lane_destruct_full lane_width row_vector cached
    (dp_column : list column_cell) start :
  length cached = lane_width →
  start + lane_width ≤ length row_vector →
  lane_destruct lane_width false
    {| _dp_block := {| column := dp_column; row := row_vector |};
       _cached_row := cached;
       _row_offset := start |}
  = Some {| column := dp_column;
            row := take start row_vector ++ cached
                   ++ drop (start + lane_width) row_vector |}.
Proof.
  intros Hlen Hfit. unfold lane_destruct. simpl.
  rewrite unroll_store_prefix by lia. simpl.
  by rewrite (take_ge cached) by lia.
Qed.

(** The constructor and the destructor of the last lane, when the tail of
    the row fits the cache. *)
Lemma lane_construct_last (default_cell : row_cell) lane_width blk
    row_offset :
  row_offset + 1 ≤ length (row blk) →
  length (row blk) - (row_offset + 1) ≤ lane_width →
  lane_construct default_cell lane_width true blk row_offset
  = Some {| _dp_block := blk;
            _cached_row :=
              drop (row_offset + 1) (row blk)
              ++ replicate (lane_width - (length (row blk) - (row_offset + 1)))
                           default_cell;
            _row_offset := row_offset + 1 |}.
Proof.
  intros Hoff Hn. unfold lane_construct. simpl.
  rewrite size_t_sub_le, last_lane_load_unroll by done.
  rewrite unroll_load_prefix; [|by rewrite length_replicate | lia].
  simpl. rewrite take_ge by (rewrite length_drop; lia).
  by rewrite drop_replicate.
Qed.

Lemma lane_destruct_last lane_width row_vector cached
    (dp_column : list column_cell) start :
  length cached = lane_width →
  start ≤ length row_vector →
  length row_vector - start ≤ lane_width →
  lane_destruct lane_width true
    {| _dp_block := {| column := dp_column; row := row_vector |};
       _cached_row := cached;
       _row_offset := start |}
  = Some {| column := dp_column;
            row := take start row_vector
                   ++ take (length row_vector - start) cached |}.
Proof.
  intros Hlen Hoff Hn. unfold lane_destruct. simpl.
  rewrite size_t_sub_le, last_lane_store_unroll by done.
  rewrite unroll_store_prefix by lia. simpl.
  rewrite (drop_ge row_vector) by lia. by rewrite app_nil_r.
Qed.

Lemma lane_construct_destruct (default_cell : row_cell) lane_width
    (is_last_lane : bool) blk row_offset :
  lane_fits lane_width is_last_lane blk row_offset →
  ∃ l, lane_construct default_cell lane_width is_last_lane blk row_offset
       = Some l ∧
       lane_destruct lane_width is_last_lane l = Some blk.
Proof.
  intros Hfit. unfold lane_fits in Hfit.
  unfold lane_construct, lane_destruct.
  destruct is_last_lane; simpl.
  - destruct Hfit as [Hoff Hn].
    rewrite size_t_sub_le by done.
    rewrite last_lane_load_unroll.
    destruct (load_store_round_trip (length (row blk) - (row_offset + 1))
                (replicate lane_width default_cell) (row blk) (row_offset + 1))
      as (cache' & -> & Hstore).
    { by rewrite length_replicate. }
    { lia. }
    simpl. eexists. split; [done|]. simpl.
    rewrite size_t_sub_le by done.
    rewrite last_lane_store_unroll, Hstore. simpl. by destruct blk.
  - destruct (load_store_round_trip lane_width
                (replicate lane_width default_cell) (row blk) (row_offset + 1))
      as (cache' & -> & Hstore).
    { by rewrite length_replicate. }
    { lia. }
    simpl. eexists. split; [done|]. simpl.
    rewrite Hstore. simpl. by destruct blk.
Qed.

(** A bulk load that is defined stayed inside the row and the cache. *)
Lemma unroll_load_Some_inv n s cache row_vector offset cache' :
  unroll_load cache row_vector offset (seq s n) = Some cache' →
  0 < n →
  s + n ≤ length cache ∧ offset + s + n ≤ length row_vector.
Proof.
  revert s cache. induction n as [|n IH]; intros s cache H Hn; [lia|].
  simpl in H.
  destruct (row_vector !! (offset + s)) as [x|] eqn:Hx; [|done].
  apply lookup_lt_Some in Hx. simpl in H.
  destruct (decide (s < length cache)) as [Hs|Hs].
  - rewrite array_set_Some in H by done. simpl in H.
    destruct n as [|n]; [lia|].
    apply IH in H as [Hc Hr]; [|lia].
    rewrite length_insert in Hc. lia.
  - rewrite array_set_None in H by lia. done.
Qed.

(** Whenever the constructor of a lane is defined, destroying the lane
    with its cache as loaded gives the block back. *)
Lemma lane_construct_destruct_defined (default_cell : row_cell) lane_width
    (is_last_lane : bool) blk row_offset l :
  lane_construct default_cell lane_width is_last_lane blk row_offset = Some l →
  lane_destruct lane_width is_last_lane l = Some blk.
Proof.
  unfold lane_construct, lane_destruct.
  set (n := if is_last_lane
            then size_t_sub (length (row blk)) (row_offset + 1)
            else lane_width).
  assert (Hload :
    (if negb is_last_lane
     then unroll_load (replicate lane_width default_cell) (row blk)
                      (row_offset + 1) (seq 0 lane_width)
     else last_lane_load (replicate lane_width default_cell) (row blk)
                         (row_offset + 1) 0
                         (size_t_sub (length (row blk)) (row_offset + 1)))
    = unroll_load (replicate lane_width default_cell) (row blk)
                  (row_offset + 1) (seq 0 n)).
  { unfold n. destruct is_last_lane; simpl; [apply last_lane_load_unroll|done]. }
  rewrite Hload. clear Hload.
  destruct (unroll_load _ _ _ (seq 0 n)) as [cache'|] eqn:Hl; [|done].
  simpl. intros [= <-]. simpl.
  assert (Hstore :
    (if negb is_last_lane
     then unroll_store (row blk) cache' (row_offset + 1) (seq 0 lane_width)
     else last_lane_store (row blk) cache' (row_offset + 1) 0
                          (size_t_sub (length (row blk)) (row_offset + 1)))
    = unroll_store (row blk) cache' (row_offset + 1) (seq 0 n)).
  { unfold n. destruct is_last_lane; simpl; [apply last_lane_store_unroll|done]. }
  rewrite Hstore. clear Hstore.
  destruct n as [|n'] eqn:Hn.
  - simpl. by destruct blk.
  - apply unroll_load_Some_inv in Hl as Hb; [|lia].
    rewrite length_replicate in Hb.
    destruct (load_store_round_trip (S n')
                (replicate lane_width default_cell) (row blk) (row_offset + 1))
      as (cache'' & Hl'' & Hs''); [rewrite length_replicate; lia | lia |].
    assert (cache'' = cache') as -> by congruence.
    rewrite Hs''. simpl. by destruct blk.
Qed.

(** C7. A lane that is constructed over a row slice inside the row and
    destroyed with its cache as loaded leaves the block, and so the row
    vector, exactly as it was. *)
Theorem lane_round_trip (default_cell : row_cell) lane_width
    (is_last_lane : bool) blk row_offset :
  (if is_last_lane
   then row_offset + 1 ≤ length (row blk) ∧
        length (row blk) - (row_offset + 1) ≤ lane_width
   else row_offset + 1 + lane_width ≤ length (row blk)) →
  ∃ l, lane_construct default_cell lane_width is_last_lane blk row_offset
       = Some l ∧
       lane_destruct lane_width is_last_lane l = Some blk.
Proof. apply lane_construct_destruct. Qed.

(** C8 (amended). The constructor of a lane that is not the last one loads
    exactly [lane_width] consecutive row cells, starting at index
    [row_offset + 1], and the destructor stores the [lane_width] cached cells
    back to the same indices. *)
Theorem lane_bulk_transfer (default_cell : row_cell) lane_width blk
    row_offset :
  row_offset + 1 + lane_width ≤ length (row blk) →
  (∃ l, lane_construct default_cell lane_width false blk row_offset = Some l ∧
        _dp_block l = blk ∧
        _row_offset l = row_offset + 1 ∧
        _cached_row l = take lane_width (drop (row_offset + 1) (row blk))) ∧
  (∀ cached (dp_column : list column_cell),
     length cached = lane_width →
     lane_destruct lane_width false
       {| _dp_block := {| column := dp_column; row := row blk |};
          _cached_row := cached;
          _row_offset := row_offset + 1 |}
     = Some {| column := dp_column;
               row := take (row_offset + 1) (row blk) ++ cached
                      ++ drop (row_offset + 1 + lane_width) (row blk) |}).
Proof.
  intros Hfit. split.
  - rewrite lane_construct_full by done. by eexists.
  - intros cached dp_column Hlen. by apply lane_destruct_full.
Qed.

(** C6 (amended). The last lane transfers exactly
    [row_len - (row_offset + 1)] cells in both directions, between the row
    indices from [row_offset + 1] on and the cache indices from 0 on; when
    that count is at most the lane width, every access to the cache stays
    within bounds. *)
Theorem last_lane_transfer (default_cell : row_cell) lane_width blk
    row_offset :
  row_offset + 1 ≤ length (row blk) →
  length (row blk) - (row_offset + 1) ≤ lane_width →
  let count := length (row blk) - (row_offset + 1) in
  (∃ l, lane_construct default_cell lane_width true blk row_offset = Some l ∧
        _dp_block l = blk ∧
        _row_offset l = row_offset + 1 ∧
        _cached_row l = drop (row_offset + 1) (row blk)
                        ++ replicate (lane_width - count) default_cell) ∧
  (∀ cached (dp_column : list column_cell),
     length cached = lane_width →
     lane_destruct lane_width true
       {| _dp_block := {| column := dp_column; row := row blk |};
          _cached_row := cached;
          _row_offset := row_offset + 1 |}
     = Some {| column := dp_column;
               row := take (row_offset + 1) (row blk)
                      ++ take count cached |}).
Proof.
  intros Hoff Hn count. split.
  - rewrite lane_construct_last by done. by eexists.
  - intros cached dp_column Hlen. by apply lane_destruct_last.
Qed.


(** When [row_offset + 1] exceeds the row length the count wraps around and
    the first load already leaves the row. *)
Lemma last_lane_offset_past_row (default_cell : row_cell) lane_width blk
    row_offset :
  length (row blk) < row_offset + 1 →
  (Z.of_nat (row_offset + 1) < 2 ^ 64)%Z →
  lane_construct default_cell lane_width true blk row_offset = None.
Proof.
  intros Hoff Hmax. unfold lane_construct. simpl.
  rewrite last_lane_load_unroll.
  rewrite unroll_load_outside; [done | | lia].
  unfold size_t_sub. rewrite decide_False by lia. lia.
Qed.

(** C10. The destructor of a lane that is not the last one writes the
    cached cells to the row cells at [start, start + lane_width), where
    [start = row_offset + 1], and changes neither another row cell nor the
    column vector. *)
Theorem lane_destruct_frame lane_width blk cached row_offset :
  length cached = lane_width →
  row_offset + 1 + lane_width ≤ length (row blk) →
  let start := row_offset + 1 in
  ∃ blk',
    lane_destruct lane_width false
      {| _dp_block := blk; _cached_row := cached; _row_offset := start |}
    = Some blk' ∧
    column blk' = column blk ∧
    length (row blk') = length (row blk) ∧
    (∀ j, j < lane_width → row blk' !! (start + j) = cached !! j) ∧
    (∀ i, ¬ (start ≤ i < start + lane_width) →
          row blk' !! i = row blk !! i).
Proof.
  intros Hlen Hfit start. unfold lane_destruct. simpl.
  destruct (unroll_store_seq lane_width 0 (row blk) cached start)
    as (row' & -> & Hlen' & Hin & Hout); [lia | unfold start; lia |].
  simpl. eexists. split; [done|]. simpl. split_and!; [done | done | |].
  - intros j Hj. apply Hin. lia.
  - intros i Hi. apply Hout. lia.
Qed.

End LaneFacts.

Section LaneExamples.
Import Lane.

Lemma lane_round_trip_witness :
  let blk := {| column := [7; 8]; row := [10; 11; 12; 13; 14] |} in
  ∃ l, lane_construct 0 4 true blk 2 = Some l ∧
       lane_destruct 4 true l = Some blk.
Proof.
  intros blk. apply (lane_round_trip 0 4 true blk 2).
  simpl. lia.
Defined.

Lemma lane_bulk_transfer_witness :
  let blk := {| column := [7; 8]; row := [10; 11; 12; 13; 14] |} in
  (∃ l, lane_construct 0 2 false blk 1 = Some l ∧
        _dp_block l = blk ∧
        _row_offset l = 1 + 1 ∧
        _cached_row l = take 2 (drop (1 + 1) (row blk))) ∧
  (∀ cached (dp_column : list nat),
     length cached = 2 →
     lane_destruct 2 false
       {| _dp_block := {| column := dp_column; row := row blk |};
          _cached_row := cached;
          _row_offset := 1 + 1 |}
     = Some {| column := dp_column;
               row := take (1 + 1) (row blk) ++ cached
                      ++ drop (1 + 1 + 2) (row blk) |}).
Proof.
  intros blk. apply (lane_bulk_transfer 0 2 blk 1 (column_cell := nat)).
  simpl. lia.
Defined.

(** C8, as stated, fails: the load starts at [row_offset + 1], not at
    [row_offset]. *)
Lemma lane_load_skips_row_offset :
  let blk := {| column := [7; 8]; row := [10; 11; 12; 13] |} in
  _cached_row <$> lane_construct 0 2 false blk 0 = Some [11; 12] ∧
  take 2 (drop 0 (row blk)) = [10; 11] ∧
  _cached_row <$> lane_construct 0 2 false blk 0
    ≠ Some (take 2 (drop 0 (row blk))).
Proof. done. Qed.

Lemma last_lane_transfer_witness :
  let blk := {| column := [7; 8]; row := [10; 11; 12; 13; 14] |} in
  (∃ l, lane_construct 0 4 true blk 1 = Some l ∧
        _dp_block l = blk ∧
        _row_offset l = 1 + 1 ∧
        _cached_row l = drop (1 + 1) (row blk) ++ replicate (4 - 3) 0) ∧
  (∀ cached (dp_column : list nat),
     length cached = 4 →
     lane_destruct 4 true
       {| _dp_block := {| column := dp_column; row := row blk |};
          _cached_row := cached;
          _row_offset := 1 + 1 |}
     = Some {| column := dp_column;
               row := take (1 + 1) (row blk) ++ take 3 cached |}).
Proof.
  intros blk. apply (last_lane_transfer 0 4 blk 1 (column_cell := nat)).
  - simpl. lia.
  - simpl. lia.
Defined.

(** C6, as stated, fails.  For a row of 5 cells, offset 0 and width 8 the
    last lane loads 4 cells, not [min 8 (5 - 0) = 5]; for width 2 the loop
    still runs 4 times and leaves the cache of 2 cells. *)
Lemma last_lane_count_not_clamped :
  let blk := {| column := [7; 8]; row := [10; 11; 12; 13; 14] |} in
  _cached_row <$> lane_construct 0 8 true blk 0
    = Some [11; 12; 13; 14; 0; 0; 0; 0] ∧
  size_t_sub (length (row blk)) (0 + 1) = 4 ∧
  8 `min` (length (row blk) - 0) = 5 ∧
  size_t_sub (length (row blk)) (0 + 1) ≠ 8 `min` (length (row blk) - 0) ∧
  lane_construct 0 2 true blk 0 = None.
Proof. done. Qed.

Lemma lane_destruct_frame_witness :
  let blk := {| column := [7; 8]; row := [10; 11; 12; 13; 14] |} in
  ∃ blk',
    lane_destruct 2 false
      {| _dp_block := blk; _cached_row := [21; 22]; _row_offset := 1 + 1 |}
    = Some blk' ∧
    column blk' = column blk ∧
    length (row blk') = length (row blk) ∧
    (∀ j, j < 2 → row blk' !! (1 + 1 + j) = [21; 22] !! j) ∧
    (∀ i, ¬ (1 + 1 ≤ i < 1 + 1 + 2) → row blk' !! i = row blk !! i).
Proof.
  intros blk. apply (lane_destruct_frame 2 blk [21; 22] 1).
  - reflexivity.
  - simpl. lia.
Defined.

End LaneExamples.

(** ** Stateful initialisation keeps the size *)

Section ForEachFacts.
Import Driver.

Lemma length_for_each {S A : Type} (fn : S → A → S * A) s (l : list A) :
  length (for_each fn s l) = length l.
Proof.
  revert s. induction l as [|x l IH]; intros s; [done|].
  simpl. destruct (fn s x) as [s' x']. simpl. by rewrite IH.
Qed.

End ForEachFacts.

(* ===================================================================== *)
(** * Further properties *)
(* ===================================================================== *)

(** ** The saturated wrapper *)

Section WrapperFacts.
Import Score Saturated Driver.
Local Open Scope Z_scope.

(** The index at which [update_offset] reads the pivot. *)
Lemma pivot_position kind :
  Nat.b2n (is_row_cell_v kind)
  = match kind with column_cell => 0%nat | row_cell => 1%nat end.
Proof. by destruct kind. Qed.

(** X1. The rebase re-centres the pivot: after [reset] with the pivot's
    best score, the best score of the pivot cell is the saturated zero
    offset, in every lane, whatever the pivot held. *)
Theorem reset_recentres_pivot kind v pivot k d z :
  base v !! Nat.b2n (is_row_cell_v kind) = Some pivot →
  score pivot !! k = Some d →
  saturated_zero_offset v !! k = Some z →
  narrow_min ≤ z ≤ narrow_max →
  ∃ pivot', base (reset v (score pivot)) !! Nat.b2n (is_row_cell_v kind)
            = Some pivot' ∧
            score pivot' !! k = Some z.
Proof.
  intros Hp Hd Hz Hrange. unfold reset. simpl.
  rewrite list_lookup_fmap, Hp. simpl. eexists. split; [done|].
  unfold score in *. simpl.
  rewrite (lookup_rebase_value _ _ _ _ d d z) by done.
  f_equal. rewrite Z.sub_diag.
  rewrite (saturate_id 0) by (unfold narrow_min, narrow_max; lia).
  by apply saturate_id.
Qed.

Lemma reset_recentres_pivot_witness :
  let v := {| base := [([5; -128], [0; 0]); ([9; 127], [0; 0])];
              offset := [0; 0]; saturated_zero_offset := [0; -3] |} in
  ∃ pivot', base (reset v [9; 127]) !! 1%nat = Some pivot' ∧
            score pivot' !! 1%nat = Some (-3).
Proof.
  intros v.
  apply (reset_recentres_pivot row_cell v ([9; 127], [0; 0]) 1 127 (-3));
    first [ reflexivity | vm_compute; split; discriminate ].
Defined.

(** X2. The check has no false alarm and misses nothing it looks at: it
    returns [true] exactly when the narrow and the widened rebase agree in
    every lane of the best score of every cell and of the gap score of
    every cell but the first; and an error it reports identifies a real
    disagreement. *)
Theorem check_saturated_arithmetic_exact v new_offset :
  (check_saturated_arithmetic v new_offset = true ↔
   ∀ i c x k real expected,
     base v !! i = Some c → checked_value i c x →
     ¬ rebase_mismatch new_offset (saturated_zero_offset v) x k
                       real expected) ∧
  (∀ d, check_saturated_arithmetic_error v new_offset = Some d →
        reports v new_offset d).
Proof.
  split; [split|].
  - unfold check_saturated_arithmetic, check_saturated_arithmetic_error.
    destruct (check_cells _ _ _ _) eqn:Hcheck; [done|].
    intros _ i c x k real expected Hc Hx.
    eapply check_cells_None in Hcheck; [|done].
    by eapply check_cell_None.
  - intros Hnone. unfold check_saturated_arithmetic.
    destruct (check_saturated_arithmetic_error v new_offset) as [d|] eqn:Hd;
      [|done].
    exfalso. unfold check_saturated_arithmetic_error in Hd.
    apply check_cells_Some in Hd as (j & c & Hi & Hj & Hd & _).
    simpl in Hd. apply check_cell_Some in Hd as (_ & x & Hx & Hm & _).
    by eapply (Hnone j c x).
  - intros d Hd. unfold check_saturated_arithmetic_error in Hd.
    apply check_cells_Some in Hd as (j & c & Hi & Hj & Hd & _).
    simpl in Hi, Hd. apply check_cell_Some in Hd as (_ & x & Hx & Hm & ?).
    exists c, x. by rewrite Hi.
Qed.

(** X3. A vector initialised from a sequence can be rebased, unless it is a
    row vector initialised from the empty sequence: its only cell is cell 0
    and the pivot of a row vector is read at index 1. *)
Theorem update_offset_out_of_range {S sym : Type} ndebug kind
    (sequence : list sym) (init_strategy : S → cell → S * cell) (s0 : S)
    (value_init : cell) (v_offset v_zero : list Z) :
  update_offset ndebug kind
    {| base := initialise value_init [] sequence init_strategy s0;
       offset := v_offset; saturated_zero_offset := v_zero |} = OutOfRange
  ↔ kind = row_cell ∧ sequence = [].
Proof.
  unfold update_offset. simpl.
  set (cells := initialise value_init [] sequence init_strategy s0).
  assert (Hlen : length cells = (length sequence + 1)%nat).
  { unfold cells, initialise, resize.
    rewrite length_for_each, length_app, length_take, length_replicate.
    simpl. lia. }
  destruct (cells !! Nat.b2n (is_row_cell_v kind)) as [pivot|] eqn:Hp.
  - apply lookup_lt_Some in Hp. rewrite pivot_position in Hp. split.
    + destruct ndebug; [done|].
      by destruct (check_saturated_arithmetic_error _ _).
    + intros [-> ->]. simpl in *. lia.
  - apply lookup_ge_None in Hp. rewrite pivot_position in Hp.
    split; [|done]. intros _.
    destruct kind; [lia|]. split; [done|].
    apply length_zero_iff_nil. lia.
Qed.

(** X4. A second rebase right after a first one does not move a stored
    value again: the pivot now holds the zero offset, and subtracting and
    re-adding it gives the value back wherever that subtraction does not
    saturate.  [gap] selects the gap score of the cell, otherwise its best
    score. *)
Theorem reset_twice kind v pivot i c (gap : bool) k a d z :
  base v !! Nat.b2n (is_row_cell_v kind) = Some pivot →
  base v !! i = Some c →
  (if gap then c.2 else c.1) !! k = Some a →
  score pivot !! k = Some d →
  saturated_zero_offset v !! k = Some z →
  narrow_min ≤ z ≤ narrow_max →
  let once := saturate (saturate (a - d) + z) in
  narrow_min ≤ once - z ≤ narrow_max →
  ∃ pivot' c1 c2,
    base (reset v (score pivot)) !! Nat.b2n (is_row_cell_v kind)
      = Some pivot' ∧
    base (reset v (score pivot)) !! i = Some c1 ∧
    base (reset (reset v (score pivot)) (score pivot')) !! i = Some c2 ∧
    (if gap then c1.2 else c1.1) !! k = Some once ∧
    (if gap then c2.2 else c2.1) !! k = Some once.
Proof.
  intros Hp Hc Ha Hd Hz Hrange once Honce.
  unfold reset. simpl.
  do 3 eexists. split_and!.
  { rewrite list_lookup_fmap, Hp. done. }
  { rewrite list_lookup_fmap, Hc. done. }
  { rewrite !list_lookup_fmap, Hc. done. }
  all: simpl; unfold score in *; simpl.
  - destruct gap; by apply lookup_rebase_value.
  - assert (Hpiv : rebase_value pivot.1 (saturated_zero_offset v) pivot.1
                     !! k = Some z).
    { rewrite (lookup_rebase_value _ _ _ _ d d z) by done.
      f_equal. rewrite Z.sub_diag.
      rewrite (saturate_id 0) by (unfold narrow_min, narrow_max; lia).
      by apply saturate_id. }
    assert (Hsecond : saturate (saturate (once - z) + z) = once).
    { rewrite (saturate_id (once - z)) by done.
      replace (once - z + z) with once by lia.
      apply saturate_id. unfold once, saturate, narrow_min, narrow_max.
      lia. }
    destruct gap.
    + rewrite (lookup_rebase_value _ _ _ _ once z z);
        [by rewrite Hsecond | by apply lookup_rebase_value | done | done].
    + rewrite (lookup_rebase_value _ _ _ _ once z z);
        [by rewrite Hsecond | by apply lookup_rebase_value | done | done].
Qed.

Lemma reset_twice_witness :
  let v := {| base := [([10], [-128]); ([-100], [20])];
              offset := [0]; saturated_zero_offset := [5] |} in
  ∃ pivot' c1 c2,
    base (reset v [10]) !! 0%nat = Some pivot' ∧
    base (reset v [10]) !! 1%nat = Some c1 ∧
    base (reset (reset v [10]) (score pivot')) !! 1%nat = Some c2 ∧
    c1.2 !! 0%nat = Some 15 ∧ c2.2 !! 0%nat = Some 15.
Proof.
  intros v.
  apply (reset_twice column_cell v ([10], [-128]) 1 ([-100], [20]) true 0
           20 10 5);
    first [ reflexivity | vm_compute; split; discriminate ].
Defined.

End WrapperFacts.

(** ** Lanes: reloading, neighbours, bounds *)

Section LaneMoreFacts.
Import Lane.
Context {row_cell column_cell : Type}.
Implicit Types (cache cached row_vector : list row_cell).
Implicit Types (blk : dp_block row_cell column_cell).


(** X5. What a lane flushes is what a lane reloads: after the destructor
    has stored a cache, a lane constructed at the same offset over the
    resulting block holds the cells that were stored ([lane_width] of them,
    or the cells of the tail for the last lane, followed by
    default-initialised cells). *)
Theorem lane_store_load (default_cell : row_cell) lane_width
    (is_last_lane : bool) blk cached row_offset :
  length cached = lane_width →
  lane_fits lane_width is_last_lane blk row_offset →
  let count := if is_last_lane then length (row blk) - (row_offset + 1)
               else lane_width in
  ∃ blk',
    lane_destruct lane_width is_last_lane
      {| _dp_block := blk; _cached_row := cached;
         _row_offset := row_offset + 1 |} = Some blk' ∧
    lane_construct default_cell lane_width is_last_lane blk' row_offset
    = Some {| _dp_block := blk';
              _cached_row := take count cached
                             ++ replicate (lane_width - count) default_cell;
              _row_offset := row_offset + 1 |}.
Proof.
  intros Hlen Hfit count. destruct blk as [dp_column row_vector].
  unfold lane_fits in Hfit. simpl in *. destruct is_last_lane.
  - destruct Hfit as [Hoff Hn].
    rewrite lane_destruct_last by done. eexists. split; [done|].
    rewrite lane_construct_last; simpl.
    + rewrite length_app, !length_take.
      rewrite drop_app_length' by (rewrite length_take; lia).
      do 4 f_equal. unfold count. lia.
    + rewrite length_app, !length_take. lia.
    + rewrite length_app, !length_take. lia.
  - rewrite lane_destruct_full by done. eexists. split; [done|].
    rewrite lane_construct_full; simpl.
    + rewrite drop_app_length' by (rewrite length_take; lia).
      rewrite take_app_length' by lia.
      unfold count. rewrite (take_ge cached) by lia.
      by rewrite Nat.sub_diag, app_nil_r.
    + rewrite !length_app, length_take, length_drop. lia.
Qed.


(** X7. The destructor of the last lane writes the cached cells to the row
    cells from [start] to the end of the row and changes neither a row cell
    before [start] nor the column vector. *)
Theorem last_lane_destruct_frame lane_width blk cached row_offset :
  length cached = lane_width →
  row_offset + 1 ≤ length (row blk) →
  length (row blk) - (row_offset + 1) ≤ lane_width →
  let start := row_offset + 1 in
  ∃ blk',
    lane_destruct lane_width true
      {| _dp_block := blk; _cached_row := cached; _row_offset := start |}
    = Some blk' ∧
    column blk' = column blk ∧
    length (row blk') = length (row blk) ∧
    (∀ j, start + j < length (row blk) →
          row blk' !! (start + j) = cached !! j) ∧
    (∀ i, i < start → row blk' !! i = row blk !! i).
Proof.
  intros Hlen Hoff Hn start. unfold lane_destruct. simpl.
  rewrite size_t_sub_le, last_lane_store_unroll by done.
  destruct (unroll_store_seq (length (row blk) - start) 0 (row blk) cached
              start) as (row' & -> & Hlen' & Hin & Hout);
    [unfold start; lia | unfold start; lia |].
  simpl. eexists. split; [done|]. simpl. split_and!; [done | done | |].
  - intros j Hj. apply Hin. lia.
  - intros i Hi. apply Hout. lia.
Qed.


End LaneMoreFacts.

Section LaneMoreExamples.
Import Lane.

Lemma lane_store_load_witness :
  let blk := {| column := [7; 8]; row := [10; 11; 12; 13; 14] |} in
  ∃ blk',
    lane_destruct 4 true
      {| _dp_block := blk; _cached_row := [21; 22; 23; 24];
         _row_offset := 1 + 1 |} = Some blk' ∧
    lane_construct 0 4 true blk' 1
    = Some {| _dp_block := blk';
              _cached_row := take 3 [21; 22; 23; 24] ++ replicate (4 - 3) 0;
              _row_offset := 1 + 1 |}.
Proof.
  intros blk. apply (lane_store_load 0 4 true blk [21; 22; 23; 24] 1).
  - reflexivity.
  - unfold lane_fits. simpl. lia.
Defined.


Lemma last_lane_destruct_frame_witness :
  let blk := {| column := [7; 8]; row := [10; 11; 12; 13; 14] |} in
  ∃ blk',
    lane_destruct 4 true
      {| _dp_block := blk; _cached_row := [21; 22; 23; 24];
         _row_offset := 1 + 1 |}
    = Some blk' ∧
    column blk' = column blk ∧
    length (row blk') = length (row blk) ∧
    (∀ j, 1 + 1 + j < length (row blk) →
          row blk' !! (1 + 1 + j) = [21; 22; 23; 24] !! j) ∧
    (∀ i, i < 1 + 1 → row blk' !! i = row blk !! i).
Proof.
  intros blk. apply (last_lane_destruct_frame 4 blk [21; 22; 23; 24] 1).
  - reflexivity.
  - simpl. lia.
  - simpl. lia.
Defined.

End LaneMoreExamples.

(** ** The kernel: range, order and offset shifts *)

Section KernelMoreFacts.
Import Score Affine KernelRange.
Local Open Scope Z_scope.
Context {seq1_val_t seq2_val_t : Type}.
Variable score : seq1_val_t → seq2_val_t → simd_score.
Variable gap : gap_model simd_score.

Lemma saturate_narrow x : narrow (saturate x).
Proof. unfold narrow, saturate, narrow_min, narrow_max. lia. Qed.

Lemma narrow_Zmax x y : narrow x → narrow y → narrow (Z.max x y).
Proof. unfold narrow. lia. Qed.

Lemma saturate_mono x y : x ≤ y → saturate x ≤ saturate y.
Proof. unfold saturate. lia. Qed.

(** The four results of [compute_cell] in one lane of saturating scores. *)
Lemma compute_cell_lane (cache column_cell : simd_score * simd_score)
    seq1_val seq2_val k d h m v s go ge :
  cache.1 !! k = Some d →
  cache.2 !! k = Some h →
  column_cell.1 !! k = Some m →
  column_cell.2 !! k = Some v →
  score seq1_val seq2_val !! k = Some s →
  gap_open_score gap !! k = Some go →
  gap_extension_score gap !! k = Some ge →
  let result :=
    compute_cell (ops := saturated_simd_ops) score gap cache column_cell
                 seq1_val seq2_val in
  let m_new := Z.max (Z.max (saturate (d + s)) h) v in
  let opened := saturate (m_new + saturate (go + ge)) in
  result.2.1 !! k = Some m_new ∧
  result.2.2 !! k = Some (Z.max (saturate (v + ge)) opened) ∧
  result.1.2 !! k = Some (Z.max (saturate (h + ge)) opened) ∧
  result.1.1 !! k = Some m.
Proof.
  intros Hd Hh Hm Hv Hs Hgo Hge.
  destruct cache as [c1 c2], column_cell as [next_diagonal horizontal_score].
  simpl in *.
  assert (Hopen : adds (gap_open_score gap) (gap_extension_score gap) !! k
                  = Some (saturate (go + ge))) by by apply lookup_adds.
  assert (Hnew : maxs (maxs (adds c1 (score seq1_val seq2_val)) c2)
                      horizontal_score !! k
                 = Some (Z.max (Z.max (saturate (d + s)) h) v)).
  { apply lookup_maxs; [|done]. apply lookup_maxs; [|done].
    by apply lookup_adds. }
  split_and!; [done | | | done].
  - apply lookup_maxs; [by apply lookup_adds|]. by apply lookup_adds.
  - apply lookup_maxs; [by apply lookup_adds|]. by apply lookup_adds.
Qed.

(** X9. The kernel keeps the narrow range: when the stored scores it reads
    (the two gap scores and the cell's best score) are representable in the
    narrow type in a lane, so are the four scores it writes there. *)
Theorem compute_cell_keeps_range (cache column_cell : simd_score * simd_score)
    seq1_val seq2_val k d h m v s go ge :
  cache.1 !! k = Some d →
  cache.2 !! k = Some h →
  column_cell.1 !! k = Some m →
  column_cell.2 !! k = Some v →
  score seq1_val seq2_val !! k = Some s →
  gap_open_score gap !! k = Some go →
  gap_extension_score gap !! k = Some ge →
  narrow h → narrow m → narrow v →
  let result :=
    compute_cell (ops := saturated_simd_ops) score gap cache column_cell
                 seq1_val seq2_val in
  ∃ m' v' h' d',
    result.2.1 !! k = Some m' ∧ result.2.2 !! k = Some v' ∧
    result.1.2 !! k = Some h' ∧ result.1.1 !! k = Some d' ∧
    narrow m' ∧ narrow v' ∧ narrow h' ∧ narrow d'.
Proof.
  intros Hd Hh Hm Hv Hs Hgo Hge Rh Rm Rv result.
  destruct (compute_cell_lane cache column_cell seq1_val seq2_val k
              d h m v s go ge) as (H1 & H2 & H3 & H4); try done.
  exists (Z.max (Z.max (saturate (d + s)) h) v),
    (Z.max (saturate (v + ge))
       (saturate (Z.max (Z.max (saturate (d + s)) h) v + saturate (go + ge)))),
    (Z.max (saturate (h + ge))
       (saturate (Z.max (Z.max (saturate (d + s)) h) v + saturate (go + ge)))),
    m.
  do 4 (split; [done|]). split; [|split; [|split; [|done]]].
  - apply narrow_Zmax; [|done].
    apply narrow_Zmax; [apply saturate_narrow | done].
  - apply narrow_Zmax; apply saturate_narrow.
  - apply narrow_Zmax; apply saturate_narrow.
Qed.

(** X10. The kernel is monotone: in a lane, larger scores read give larger
    (or equal) scores written, saturation included. *)
Theorem compute_cell_monotone
    (cache cache' column_cell column_cell' : simd_score * simd_score)
    seq1_val seq2_val k d h m v d' h' m' v' s go ge :
  cache.1 !! k = Some d → cache'.1 !! k = Some d' →
  cache.2 !! k = Some h → cache'.2 !! k = Some h' →
  column_cell.1 !! k = Some m → column_cell'.1 !! k = Some m' →
  column_cell.2 !! k = Some v → column_cell'.2 !! k = Some v' →
  score seq1_val seq2_val !! k = Some s →
  gap_open_score gap !! k = Some go →
  gap_extension_score gap !! k = Some ge →
  d ≤ d' → h ≤ h' → m ≤ m' → v ≤ v' →
  let result :=
    compute_cell (ops := saturated_simd_ops) score gap cache column_cell
                 seq1_val seq2_val in
  let result' :=
    compute_cell (ops := saturated_simd_ops) score gap cache' column_cell'
                 seq1_val seq2_val in
  ∃ x1 x2 x3 x4 y1 y2 y3 y4,
    result.2.1 !! k = Some x1 ∧ result'.2.1 !! k = Some y1 ∧
    result.2.2 !! k = Some x2 ∧ result'.2.2 !! k = Some y2 ∧
    result.1.2 !! k = Some x3 ∧ result'.1.2 !! k = Some y3 ∧
    result.1.1 !! k = Some x4 ∧ result'.1.1 !! k = Some y4 ∧
    x1 ≤ y1 ∧ x2 ≤ y2 ∧ x3 ≤ y3 ∧ x4 ≤ y4.
Proof.
  intros Hd Hd' Hh Hh' Hm Hm' Hv Hv' Hs Hgo Hge Ld Lh Lm Lv result result'.
  destruct (compute_cell_lane cache column_cell seq1_val seq2_val k
              d h m v s go ge) as (H1 & H2 & H3 & H4); try done.
  destruct (compute_cell_lane cache' column_cell' seq1_val seq2_val k
              d' h' m' v' s go ge) as (H1' & H2' & H3' & H4'); try done.
  assert (Lnew : Z.max (Z.max (saturate (d + s)) h) v
                 ≤ Z.max (Z.max (saturate (d' + s)) h') v').
  { apply Z.max_le_compat; [|done].
    apply Z.max_le_compat; [|done]. apply saturate_mono. lia. }
  assert (Lopen : saturate (Z.max (Z.max (saturate (d + s)) h) v
                            + saturate (go + ge))
                  ≤ saturate (Z.max (Z.max (saturate (d' + s)) h') v'
                              + saturate (go + ge))).
  { apply saturate_mono. lia. }
  do 8 eexists.
  split_and!; [exact H1 | exact H1' | exact H2 | exact H2' | exact H3
              | exact H3' | exact H4 | exact H4' | done | | | done].
  - apply Z.max_le_compat; [|done]. apply saturate_mono. lia.
  - apply Z.max_le_compat; [|done]. apply saturate_mono. lia.
Qed.

(** X11. The kernel commutes with a shift of the offset: when no sum
    saturates, shifting all scores read in a lane by [delta] shifts the four
    scores written there by [delta]. *)
Theorem compute_cell_shift
    (cache cache' column_cell column_cell' : simd_score * simd_score)
    seq1_val seq2_val k d h m v s go ge delta :
  cache.1 !! k = Some d → cache'.1 !! k = Some (d + delta) →
  cache.2 !! k = Some h → cache'.2 !! k = Some (h + delta) →
  column_cell.1 !! k = Some m → column_cell'.1 !! k = Some (m + delta) →
  column_cell.2 !! k = Some v → column_cell'.2 !! k = Some (v + delta) →
  score seq1_val seq2_val !! k = Some s →
  gap_open_score gap !! k = Some go →
  gap_extension_score gap !! k = Some ge →
  exact_step d h v s go ge →
  exact_step (d + delta) (h + delta) (v + delta) s go ge →
  let result :=
    compute_cell (ops := saturated_simd_ops) score gap cache column_cell
                 seq1_val seq2_val in
  let result' :=
    compute_cell (ops := saturated_simd_ops) score gap cache' column_cell'
                 seq1_val seq2_val in
  ∃ x1 x2 x3 x4,
    result.2.1 !! k = Some x1 ∧ result'.2.1 !! k = Some (x1 + delta) ∧
    result.2.2 !! k = Some x2 ∧ result'.2.2 !! k = Some (x2 + delta) ∧
    result.1.2 !! k = Some x3 ∧ result'.1.2 !! k = Some (x3 + delta) ∧
    result.1.1 !! k = Some x4 ∧ result'.1.1 !! k = Some (x4 + delta).
Proof.
  intros Hd Hd' Hh Hh' Hm Hm' Hv Hv' Hs Hgo Hge Hex Hex' result result'.
  destruct (compute_cell_lane cache column_cell seq1_val seq2_val k
              d h m v s go ge) as (H1 & H2 & H3 & H4); try done.
  destruct (compute_cell_lane cache' column_cell' seq1_val seq2_val k
              (d + delta) (h + delta) (m + delta) (v + delta) s go ge)
    as (H1' & H2' & H3' & H4'); try done.
  destruct Hex as (E1 & E2 & E3 & E4 & E5).
  destruct Hex' as (E1' & _ & E3' & E4' & E5').
  unfold narrow in *.
  rewrite (saturate_id (d + s)) in * by done.
  rewrite (saturate_id (d + delta + s)) in * by done.
  rewrite (saturate_id (go + ge)) in * by done.
  rewrite (saturate_id (h + ge)) in * by done.
  rewrite (saturate_id (h + delta + ge)) in * by done.
  rewrite (saturate_id (v + ge)) in * by done.
  rewrite (saturate_id (v + delta + ge)) in * by done.
  rewrite (saturate_id (Z.max (Z.max (d + s) h) v + (go + ge))) in * by done.
  rewrite (saturate_id (Z.max (Z.max (d + delta + s) (h + delta)) (v + delta)
                        + (go + ge))) in * by done.
  subst result result'. do 4 eexists.
  split_and!; [exact H1 | | exact H2 | | exact H3 | | exact H4 | exact H4'].
  - rewrite H1'. f_equal. lia.
  - rewrite H2'. f_equal. lia.
  - rewrite H3'. f_equal. lia.
Qed.

End KernelMoreFacts.

Section KernelMoreExamples.
Import Score Affine KernelRange.
Local Open Scope Z_scope.

Lemma compute_cell_keeps_range_witness :
  let score := λ (a b : bool), if Bool.eqb a b then [127] else [-128] in
  let gap := {| gap_open_score := [-100]; gap_extension_score := [-100] |} in
  let result :=
    compute_cell (ops := saturated_simd_ops) score gap
                 ([127], [-128]) ([5], [-128]) true true in
  ∃ m' v' h' d',
    result.2.1 !! 0%nat = Some m' ∧ result.2.2 !! 0%nat = Some v' ∧
    result.1.2 !! 0%nat = Some h' ∧ result.1.1 !! 0%nat = Some d' ∧
    narrow m' ∧ narrow v' ∧ narrow h' ∧ narrow d'.
Proof.
  intros score gap.
  apply (compute_cell_keeps_range score gap ([127], [-128]) ([5], [-128])
           true true 0 127 (-128) 5 (-128) 127 (-100) (-100));
    first [ reflexivity | vm_compute; split; discriminate ].
Defined.

Lemma compute_cell_monotone_witness :
  let score := λ (a b : bool), if Bool.eqb a b then [4] else [-2] in
  let gap := {| gap_open_score := [-4]; gap_extension_score := [-1] |} in
  let result :=
    compute_cell (ops := saturated_simd_ops) score gap
                 ([0], [-5]) ([-5], [-5]) true true in
  let result' :=
    compute_cell (ops := saturated_simd_ops) score gap
                 ([125], [-5]) ([-5], [7]) true true in
  ∃ x1 x2 x3 x4 y1 y2 y3 y4,
    result.2.1 !! 0%nat = Some x1 ∧ result'.2.1 !! 0%nat = Some y1 ∧
    result.2.2 !! 0%nat = Some x2 ∧ result'.2.2 !! 0%nat = Some y2 ∧
    result.1.2 !! 0%nat = Some x3 ∧ result'.1.2 !! 0%nat = Some y3 ∧
    result.1.1 !! 0%nat = Some x4 ∧ result'.1.1 !! 0%nat = Some y4 ∧
    x1 ≤ y1 ∧ x2 ≤ y2 ∧ x3 ≤ y3 ∧ x4 ≤ y4.
Proof.
  intros score gap.
  apply (compute_cell_monotone score gap ([0], [-5]) ([125], [-5])
           ([-5], [-5]) ([-5], [7]) true true 0
           0 (-5) (-5) (-5) 125 (-5) (-5) 7 4 (-4) (-1));
    first [ reflexivity | vm_compute; discriminate ].
Defined.

Lemma compute_cell_shift_witness :
  let score := λ (a b : bool), if Bool.eqb a b then [4] else [-2] in
  let gap := {| gap_open_score := [-4]; gap_extension_score := [-1] |} in
  let result :=
    compute_cell (ops := saturated_simd_ops) score gap
                 ([0], [-5]) ([-5], [-6]) true true in
  let result' :=
    compute_cell (ops := saturated_simd_ops) score gap
                 ([0 + 100], [-5 + 100]) ([-5 + 100], [-6 + 100])
                 true true in
  ∃ x1 x2 x3 x4,
    result.2.1 !! 0%nat = Some x1 ∧ result'.2.1 !! 0%nat = Some (x1 + 100) ∧
    result.2.2 !! 0%nat = Some x2 ∧ result'.2.2 !! 0%nat = Some (x2 + 100) ∧
    result.1.2 !! 0%nat = Some x3 ∧ result'.1.2 !! 0%nat = Some (x3 + 100) ∧
    result.1.1 !! 0%nat = Some x4 ∧ result'.1.1 !! 0%nat = Some (x4 + 100).
Proof.
  intros score gap.
  apply (compute_cell_shift score gap ([0], [-5]) ([0 + 100], [-5 + 100])
           ([-5], [-6]) ([-5 + 100], [-6 + 100]) true true 0
           0 (-5) (-5) (-6) 4 (-4) (-1) 100);
    first [ reflexivity
          | vm_compute; repeat split; discriminate ].
Defined.

End KernelMoreExamples.

(** ** Initialising a DP vector *)

Section InitialiseFacts.
Import Score Affine Driver.
Context {S A sym : Type}.
Variable init_strategy : S → A → S * A.
Variable value_init : A.

Lemma length_resize n (v : list A) : length (resize value_init n v) = n.
Proof.
  unfold resize. rewrite length_app, length_take, length_replicate. lia.
Qed.

Lemma resize_nil n : resize value_init n [] = replicate n value_init.
Proof. unfold resize. by rewrite take_nil, Nat.sub_0_r. Qed.

(** A strategy that does not look at the cell it overwrites sees only the
    number of cells. *)
Lemma for_each_ignore s (l l' : list A) :
  (∀ s a b, init_strategy s a = init_strategy s b) →
  length l = length l' →
  for_each init_strategy s l = for_each init_strategy s l'.
Proof.
  intros Hignore. revert s l'.
  induction l as [|x l IH]; intros s [|x' l'] Hlen; simpl in *; try done.
  rewrite (Hignore s x x'). destruct (init_strategy s x') as [s' y].
  f_equal. apply IH. lia.
Qed.

Lemma take_for_each n s (l : list A) :
  take n (for_each init_strategy s l) = for_each init_strategy s (take n l).
Proof.
  revert n s. induction l as [|x l IH]; intros [|n] s; simpl; try done.
  all: destruct (init_strategy s x) as [s' y]; simpl; by rewrite ?IH.
Qed.

(** X12. [initialise] sizes the vector to the sequence length plus one
    whatever the vector held, and a vector that is reused is initialised
    like a fresh one when the strategy overwrites the cells without reading
    them. *)
Theorem initialise_reuse (dp_vector : list A) (sequence : list sym) s0 :
  length (initialise value_init dp_vector sequence init_strategy s0)
  = length sequence + 1 ∧
  ((∀ s a b, init_strategy s a = init_strategy s b) →
   initialise value_init dp_vector sequence init_strategy s0
   = initialise value_init [] sequence init_strategy s0).
Proof.
  unfold initialise. split.
  - by rewrite length_for_each, length_resize.
  - intros Hignore. apply for_each_ignore; [done|]. by rewrite !length_resize.
Qed.

(** X13. The seed of a cell does not depend on how long the sequence is:
    the vector initialised for a sequence is the beginning of the vector
    initialised for any longer sequence. *)
Theorem initialise_prefix (sequence sequence' : list sym) s0 :
  length sequence ≤ length sequence' →
  take (length sequence + 1)
       (initialise value_init [] sequence' init_strategy s0)
  = initialise value_init [] sequence init_strategy s0.
Proof.
  intros Hle. unfold initialise.
  rewrite take_for_each, !resize_nil, take_replicate.
  do 2 f_equal. lia.
Qed.

End InitialiseFacts.

Section InitialiseExamples.
Import Score Affine Driver.

Lemma initialise_reuse_witness :
  let strategy := λ (i : nat) (_ : Z * Z), (S i, ((- Z.of_nat i)%Z, 0%Z)) in
  length (initialise (0%Z, 0%Z) [(7%Z, 7%Z); (8%Z, 8%Z); (9%Z, 9%Z)]
                     [true; false] strategy 0)
  = length [true; false] + 1 ∧
  initialise (0%Z, 0%Z) [(7%Z, 7%Z); (8%Z, 8%Z); (9%Z, 9%Z)]
             [true; false] strategy 0
  = initialise (0%Z, 0%Z) [] [true; false] strategy 0.
Proof.
  intros strategy.
  destruct (initialise_reuse strategy (0%Z, 0%Z)
              [(7%Z, 7%Z); (8%Z, 8%Z); (9%Z, 9%Z)] [true; false] 0)
    as [Hlength Hreuse].
  split; [exact Hlength | apply Hreuse; reflexivity].
Defined.

Lemma initialise_prefix_witness :
  let strategy := λ (i : nat) (c : Z * Z),
                    (S i, ((c.1 - Z.of_nat i)%Z, c.2)) in
  take (length [true] + 1)
       (initialise (0%Z, 0%Z) [] [true; false; true] strategy 0)
  = initialise (0%Z, 0%Z) [] [true] strategy 0.
Proof.
  intros strategy.
  apply (initialise_prefix strategy (0%Z, 0%Z) [true] [true; false; true] 0).
  simpl. lia.
Defined.

End InitialiseExamples.

(** ** The tables of the matrix score model *)

Section MatrixFacts.
Import Lane ScoreModelMatrix.
Context {score_t : Type}.
Variable zero : score_t.
Implicit Types (linear_matrix : list score_t) (rank_map : list nat).
Implicit Types (M : list (Z * list score_t)).

Lemma to_uint8_lt symbol : to_uint8 symbol < 256.
Proof.
  unfold to_uint8. pose proof (Z.mod_pos_bound symbol 256). lia.
Qed.

Lemma copy_n_unroll (src : list score_t) k n dst pos :
  copy_n src k n dst pos = unroll_store dst src pos (seq k n).
Proof.
  revert k dst. induction n as [|n IH]; intros k dst; [done|].
  simpl. destruct (src !! k) as [x|]; [|done]. simpl.
  destruct (array_set dst (pos + k) x); [|done]. simpl. apply IH.
Qed.

Lemma fill_tables_app dimension M linear_matrix rank_map ranks ranks' :
  fill_tables dimension M linear_matrix rank_map (ranks ++ ranks')
  = tables ← fill_tables dimension M linear_matrix rank_map ranks;
    fill_tables dimension M tables.1 tables.2 ranks'.
Proof.
  revert linear_matrix rank_map.
  induction ranks as [|rank ranks IH]; intros linear_matrix rank_map; [done|].
  simpl. destruct (M !! rank) as [entry|]; [|done]. simpl.
  destruct (array_set rank_map _ rank); [|done]. simpl.
  destruct (copy_n _ _ _ _ _); [|done]. simpl. apply IH.
Qed.

(** The state of the tables after the ranks [0, n). *)
Lemma fill_tables_seq dimension M n linear_matrix rank_map :
  well_formed dimension M →
  n ≤ dimension →
  length linear_matrix = dimension * dimension →
  length rank_map = 256 →
  ∃ linear_matrix' rank_map',
    fill_tables dimension M linear_matrix rank_map (seq 0 n)
    = Some (linear_matrix', rank_map') ∧
    length linear_matrix' = dimension * dimension ∧
    length rank_map' = 256 ∧
    (∀ rank column entry,
       rank < n → column < dimension → M !! rank = Some entry →
       linear_matrix' !! (rank * dimension + column) = entry.2 !! column) ∧
    (∀ p, n * dimension ≤ p → linear_matrix' !! p = linear_matrix !! p) ∧
    (∀ b rank, rank_map' !! b = Some rank ↔
               last_rank_of M 0 n b rank ∨
               (rank_map !! b = Some rank ∧ no_rank_of M 0 n b)).
Proof.
  intros [HlenM Hrows] Hn Hlin Hmap. unfold last_rank_of, no_rank_of.
  induction n as [|n IH].
  - exists linear_matrix, rank_map. split_and!; try done.
    + intros rank column entry Hr. lia.
    + intros b rank. split.
      * intros Hb. right. split; [done|]. intros r e Hr. lia.
      * intros [(Hr & _) | [Hb _]]; [lia | done].
  - destruct IH as (lin1 & map1 & Hfill & Hlin1 & Hmap1 & Hrow1 & Hout1 & Hrank1);
      [lia|].
    rewrite seq_S, fill_tables_app, Hfill. simpl.
    destruct (lookup_lt_is_Some_2 M n) as [entry Hentry]; [lia|].
    rewrite Hentry. simpl.
    pose proof (to_uint8_lt entry.1) as Hbyte.
    rewrite array_set_Some by lia. simpl.
    rewrite copy_n_unroll.
    destruct (unroll_store_seq dimension 0 lin1 entry.2 (n * dimension))
      as (lin2 & -> & Hlin2 & Hin2 & Hout2).
    { rewrite (Hrows n entry Hentry). lia. }
    { rewrite Hlin1. nia. }
    simpl. eexists _, _. split; [done|].
    split_and!.
    + lia.
    + by rewrite length_insert.
    + intros rank column e Hr Hc He.
      destruct (decide (rank = n)) as [->|Hne].
      * assert (e = entry) as -> by congruence. apply Hin2. lia.
      * rewrite Hout2 by nia. apply Hrow1; [lia | done | done].
    + intros p Hp. rewrite Hout2 by nia. apply Hout1. nia.
    + intros b rank.
      destruct (decide (b = to_uint8 entry.1)) as [->|Hb].
      * rewrite list_lookup_insert_eq by lia. split.
        -- intros [= <-]. left. split; [lia|]. split; [by exists entry|].
           intros r' e' Hr'. lia.
        -- intros [(Hr & _ & Hlast) | [_ Hnone]].
           ++ f_equal. destruct (decide (rank = n)) as [|Hne]; [done|].
              exfalso. eapply (Hlast n entry); [lia | done | done].
           ++ exfalso. eapply (Hnone n entry); [lia | done | done].
      * rewrite list_lookup_insert_ne by done. rewrite Hrank1. split.
        -- intros [(Hr & He & Hlast) | [Hold Hnone]].
           ++ left. split; [lia|]. split; [done|].
              intros r' e' Hr' He'.
              destruct (decide (r' = n)) as [->|Hne].
              ** assert (e' = entry) as -> by congruence. done.
              ** apply (Hlast r' e'); [lia | done].
           ++ right. split; [done|]. intros r e Hr He.
              destruct (decide (r = n)) as [->|Hne].
              ** assert (e = entry) as -> by congruence. done.
              ** apply (Hnone r e); [lia | done].
        -- intros [(Hr & (e & He & Hbe) & Hlast) | [Hold Hnone]].
           ++ left. split; [|split].
              ** destruct (decide (rank = n)) as [->|Hne]; [|lia].
                 assert (e = entry) as -> by congruence. done.
              ** by exists e.
              ** intros r' e' Hr' He'. apply (Hlast r' e'); [lia | done].
           ++ right. split; [done|]. intros r e Hr He.
              apply (Hnone r e); [lia | done].
Qed.

(** The tables as built, for a matrix of the type the function takes. *)
Lemma build_tables_spec dimension M :
  well_formed dimension M →
  dimension ≤ 255 →
  ∃ linear_matrix rank_map,
    build_tables zero dimension M = Some (linear_matrix, rank_map) ∧
    length linear_matrix = dimension * dimension ∧
    length rank_map = 256 ∧
    (∀ rank column entry,
       rank < dimension → column < dimension → M !! rank = Some entry →
       linear_matrix !! (rank * dimension + column) = entry.2 !! column) ∧
    (∀ b rank, rank_map !! b = Some rank ↔
               last_rank_of M 0 dimension b rank ∨
               (rank = 255 ∧ b < 256 ∧ no_rank_of M 0 dimension b)).
Proof.
  intros Hwf Hdim. unfold build_tables. rewrite decide_True by done.
  destruct (fill_tables_seq dimension M dimension
              (replicate (dimension * dimension) zero) (replicate 256 255))
    as (lin & map & -> & Hlin & Hmap & Hrow & _ & Hrank);
    [done | done | by rewrite length_replicate | by rewrite length_replicate |].
  exists lin, map. split_and!; try done.
  intros b rank. rewrite Hrank. unfold last_rank_of, no_rank_of. split.
  - intros [H | [Hb Hnone]]; [by left|]. right.
    apply lookup_replicate in Hb as [-> Hb]. done.
  - intros [H | (-> & Hb & Hnone)]; [by left|]. right.
    split; [|done]. by apply lookup_replicate_2.
Qed.

End MatrixFacts.

Section MatrixTheorems.
Import Lane ScoreModelMatrix.
Context {score_t : Type}.
Variable zero : score_t.
Implicit Types (M : list (Z * list score_t)).

(** X14. The linear matrix is the substitution matrix row by row: entry
    [rank * dimension + column] is the score of row [rank], column
    [column], and the matrix has [dimension * dimension] entries. *)
Theorem linear_matrix_row_major dimension M :
  well_formed dimension M →
  dimension ≤ 255 →
  ∃ linear_matrix rank_map,
    build_tables zero dimension M = Some (linear_matrix, rank_map) ∧
    length linear_matrix = dimension * dimension ∧
    ∀ rank column entry x,
      M !! rank = Some entry → entry.2 !! column = Some x →
      linear_matrix !! (rank * dimension + column) = Some x.
Proof.
  intros Hwf Hdim.
  destruct (build_tables_spec zero dimension M Hwf Hdim)
    as (lin & map & Hbuild & Hlin & _ & Hrow & _).
  exists lin, map. split_and!; [done | done |].
  intros rank column entry x Hentry Hx.
  rewrite (Hrow rank column entry); [done | | | done].
  - apply lookup_lt_Some in Hentry. destruct Hwf as [<- _]. done.
  - apply lookup_lt_Some in Hx. destruct Hwf as [_ Hrows].
    by rewrite (Hrows rank entry Hentry) in Hx.
Qed.

(** X15. The symbol-to-rank map has 256 entries; the byte of no symbol of
    the alphabet maps to 255; the byte of a symbol maps to the last rank
    whose symbol has that byte; and an entry other than 255 is the rank of
    a symbol with that byte, so 255 never stands for a rank. *)
Theorem rank_map_exact dimension M :
  well_formed dimension M →
  dimension ≤ 255 →
  ∃ linear_matrix rank_map,
    build_tables zero dimension M = Some (linear_matrix, rank_map) ∧
    length rank_map = 256 ∧
    (∀ b, b < 256 → no_rank_of M 0 dimension b → rank_map !! b = Some 255) ∧
    (∀ b rank, last_rank_of M 0 dimension b rank →
               rank_map !! b = Some rank) ∧
    (∀ b rank, rank_map !! b = Some rank → rank ≠ 255 →
               rank < dimension ∧
               ∃ entry, M !! rank = Some entry ∧ to_uint8 entry.1 = b) ∧
    (∀ b, rank_map !! b = Some 255 → no_rank_of M 0 dimension b).
Proof.
  intros Hwf Hdim.
  destruct (build_tables_spec zero dimension M Hwf Hdim)
    as (lin & map & Hbuild & _ & Hmap & _ & Hrank).
  exists lin, map. split_and!; [done | done | | | |].
  - intros b Hb Hnone. apply Hrank. by right.
  - intros b rank Hlast. apply Hrank. by left.
  - intros b rank Hb Hne. apply Hrank in Hb as [(Hr & He & _) | [? _]];
      [|done]. split; [lia | done].
  - intros b Hb. apply Hrank in Hb as [(Hr & _) | (_ & _ & Hnone)];
      [lia | done].
Qed.

(** X16. For an alphabet whose symbols have distinct bytes the map sends
    the byte of every symbol to its rank, and the rank determines the
    byte: symbol to rank and back is the identity. *)
Theorem rank_map_distinct dimension M :
  well_formed dimension M →
  dimension ≤ 255 →
  (∀ rank rank' entry entry',
     M !! rank = Some entry → M !! rank' = Some entry' →
     to_uint8 entry.1 = to_uint8 entry'.1 → rank = rank') →
  ∃ linear_matrix rank_map,
    build_tables zero dimension M = Some (linear_matrix, rank_map) ∧
    (∀ rank entry, M !! rank = Some entry →
                   rank_map !! to_uint8 entry.1 = Some rank) ∧
    (∀ b rank entry, rank_map !! b = Some rank → M !! rank = Some entry →
                     b = to_uint8 entry.1).
Proof.
  intros Hwf Hdim Hdistinct.
  destruct (build_tables_spec zero dimension M Hwf Hdim)
    as (lin & map & Hbuild & _ & Hmap & _ & Hrank).
  exists lin, map. split_and!; [done | |].
  - intros rank entry Hentry. apply Hrank. left.
    unfold last_rank_of. split; [|split].
    + apply lookup_lt_Some in Hentry. destruct Hwf as [<- _]. lia.
    + by exists entry.
    + intros rank' entry' Hr' Hentry' Hsame.
      assert (rank' = rank) by (by eapply Hdistinct). lia.
  - intros b rank entry Hb Hentry.
    apply Hrank in Hb as [(_ & (e & He & <-) & _) | (-> & _ & _)].
    + congruence.
    + apply lookup_lt_Some in Hentry. destruct Hwf as [HlenM _]. lia.
Qed.

End MatrixTheorems.

Section MatrixExamples.
Import Lane ScoreModelMatrix.

(** The DNA alphabet [A, C, G, T] with match 4 and mismatch -2. *)
Lemma dna_matrix_well_formed :
  well_formed 4 [(65, [4; -2; -2; -2]); (67, [-2; 4; -2; -2]);
                 (71, [-2; -2; 4; -2]); (84, [-2; -2; -2; 4])]%Z.
Proof.
  split; [reflexivity|]. intros rank entry Hentry.
  do 4 (destruct rank as [|rank]; [by injection Hentry as <-|]).
  done.
Defined.

Lemma linear_matrix_row_major_witness :
  let M := [(65, [4; -2; -2; -2]); (67, [-2; 4; -2; -2]);
            (71, [-2; -2; 4; -2]); (84, [-2; -2; -2; 4])]%Z in
  ∃ linear_matrix rank_map,
    build_tables 0%Z 4 M = Some (linear_matrix, rank_map) ∧
    length linear_matrix = 4 * 4 ∧
    ∀ rank column entry x,
      M !! rank = Some entry → entry.2 !! column = Some x →
      linear_matrix !! (rank * 4 + column) = Some x.
Proof.
  intros M. apply (linear_matrix_row_major 0%Z 4 M).
  - exact dna_matrix_well_formed.
  - lia.
Defined.

Lemma rank_map_exact_witness :
  let M := [(65, [4; -2; -2; -2]); (67, [-2; 4; -2; -2]);
            (71, [-2; -2; 4; -2]); (84, [-2; -2; -2; 4])]%Z in
  ∃ linear_matrix rank_map,
    build_tables 0%Z 4 M = Some (linear_matrix, rank_map) ∧
    length rank_map = 256 ∧
    (∀ b, b < 256 → no_rank_of M 0 4 b → rank_map !! b = Some 255) ∧
    (∀ b rank, last_rank_of M 0 4 b rank → rank_map !! b = Some rank) ∧
    (∀ b rank, rank_map !! b = Some rank → rank ≠ 255 →
               rank < 4 ∧
               ∃ entry, M !! rank = Some entry ∧ to_uint8 entry.1 = b) ∧
    (∀ b, rank_map !! b = Some 255 → no_rank_of M 0 4 b).
Proof.
  intros M. apply (rank_map_exact 0%Z 4 M).
  - exact dna_matrix_well_formed.
  - lia.
Defined.

Lemma rank_map_distinct_witness :
  let M := [(65, [4; -2; -2; -2]); (67, [-2; 4; -2; -2]);
            (71, [-2; -2; 4; -2]); (84, [-2; -2; -2; 4])]%Z in
  ∃ linear_matrix rank_map,
    build_tables 0%Z 4 M = Some (linear_matrix, rank_map) ∧
    (∀ rank entry, M !! rank = Some entry →
                   rank_map !! to_uint8 entry.1 = Some rank) ∧
    (∀ b rank entry, rank_map !! b = Some rank → M !! rank = Some entry →
                     b = to_uint8 entry.1).
Proof.
  intros M. apply (rank_map_distinct 0%Z 4 M).
  - exact dna_matrix_well_formed.
  - lia.
  - intros rank rank' entry entry' Hentry Hentry'.
    do 4 (destruct rank as [|rank];
          [injection Hentry as <-;
           do 4 (destruct rank' as [|rank'];
                 [by injection Hentry' as <-|]); done|]).
    done.
Defined.

End MatrixExamples.

(** ** Initialising a SIMD DP vector *)

Section SimdFacts.
Import Lane Driver SimdVector.
Context {sym S A : Type}.
Variable to_lane : sym → Z.
Variable value_init_score : list Z.
Variable value_init : A.
Implicit Types (sequence : list (option (list sym))).
Implicit Types (simd_sequence : list (list Z)).

Lemma foldl_max_sequence_size sequence acc :
  let size :=
    foldl (λ max_size optional_sequence,
             match optional_sequence with
             | Some s => max_size `max` length s
             | None => max_size
             end) acc sequence in
  acc ≤ size ∧
  (∀ i (s : list sym), sequence !! i = Some (Some s) → length s ≤ size) ∧
  (size = acc ∨
   ∃ i (s : list sym), sequence !! i = Some (Some s) ∧ length s = size).
Proof.
  revert acc. induction sequence as [|o sequence IH]; intros acc; simpl.
  - split_and!; [done | done | by left].
  - destruct (IH (match o with Some s => acc `max` length s | None => acc end))
      as (Hle & Hall & Hsome).
    split_and!.
    + destruct o; lia.
    + intros [|i] s Hs; simpl in Hs.
      * injection Hs as ->. lia.
      * by eapply Hall.
    + destruct Hsome as [Heq | (i & s & Hs & Hlen)].
      * destruct o as [s|]; [|by left].
        destruct (decide (length s ≤ acc)) as [|Hgt]; [left; lia|].
        right. exists 0, s. split; [done | lia].
      * right. by exists (Datatypes.S i), s.
Qed.

(** The largest size is an upper bound that some sequence attains. *)
Lemma max_sequence_size_spec sequence :
  (∀ i s, sequence !! i = Some (Some s) →
          length s ≤ max_sequence_size sequence) ∧
  (max_sequence_size sequence = 0 ∨
   ∃ i s, sequence !! i = Some (Some s) ∧
          length s = max_sequence_size sequence).
Proof.
  destruct (foldl_max_sequence_size sequence 0) as (_ & Hall & Hsome).
  split; [exact Hall | exact Hsome].
Qed.

(** The inner loop for sequence [i], when the sequence is long enough and
    lane [i] exists. *)
Lemma transfer_sequence_seq sequence i s n j0 simd_sequence :
  sequence !! i = Some (Some s) →
  j0 + n ≤ length s →
  j0 + n ≤ length simd_sequence →
  (∀ j lanes, simd_sequence !! j = Some lanes → i < length lanes) →
  ∃ simd_sequence',
    transfer_sequence to_lane sequence i simd_sequence (seq j0 n)
    = Some simd_sequence' ∧
    length simd_sequence' = length simd_sequence ∧
    (∀ j, j0 ≤ j < j0 + n →
          ∃ x lanes, s !! j = Some x ∧ simd_sequence !! j = Some lanes ∧
                     simd_sequence' !! j = Some (<[i:=to_lane x]> lanes)) ∧
    (∀ j, ¬ (j0 ≤ j < j0 + n) → simd_sequence' !! j = simd_sequence !! j).
Proof.
  intros Hs. revert j0 simd_sequence.
  induction n as [|n IH]; intros j0 simd_sequence Hlen Hsimd Hlanes; simpl.
  - exists simd_sequence. split_and!; [done | done | | done].
    intros j Hj. lia.
  - rewrite Hs. simpl.
    destruct (lookup_lt_is_Some_2 s j0) as [x Hx]; [lia|].
    destruct (lookup_lt_is_Some_2 simd_sequence j0) as [lanes Hl]; [lia|].
    rewrite Hx, Hl. simpl.
    rewrite array_set_Some by by eapply Hlanes. simpl.
    rewrite array_set_Some by lia. simpl.
    destruct (IH (Datatypes.S j0)
                (<[j0:=<[i:=to_lane x]> lanes]> simd_sequence))
      as (simd' & -> & Hlen' & Hin & Hout).
    { lia. }
    { rewrite length_insert. lia. }
    { intros j lanes' Hj.
      destruct (decide (j = j0)) as [->|Hne].
      - rewrite list_lookup_insert_eq in Hj by lia. injection Hj as <-.
        rewrite length_insert. by eapply Hlanes.
      - rewrite list_lookup_insert_ne in Hj by done. by eapply Hlanes. }
    exists simd'. rewrite length_insert in Hlen'.
    split_and!; [done | done | |].
    + intros j Hj. destruct (decide (j = j0)) as [->|Hne].
      * exists x, lanes. split_and!; [done | done |].
        rewrite Hout by lia. by rewrite list_lookup_insert_eq by lia.
      * destruct (Hin j) as (x' & lanes' & Hx' & Hl' & Hr'); [lia|].
        rewrite list_lookup_insert_ne in Hl' by done.
        by exists x', lanes'.
    + intros j Hj. rewrite Hout by lia.
      apply list_lookup_insert_ne. lia.
Qed.

(** The loop over the sequences [i0, i0 + count), when every one of them is
    present and long enough and the lanes exist. *)
Lemma transfer_sequences_seq sequence max_size count i0 simd_sequence lanes_n :
  (∀ i, i0 ≤ i < i0 + count →
        ∃ s, sequence !! i = Some (Some s) ∧ max_size ≤ length s) →
  i0 + count ≤ lanes_n →
  length simd_sequence = max_size →
  (∀ j lanes, simd_sequence !! j = Some lanes → length lanes = lanes_n) →
  ∃ simd_sequence',
    transfer_sequences to_lane sequence max_size simd_sequence
                       (seq i0 count) = Some simd_sequence' ∧
    length simd_sequence' = max_size ∧
    (∀ j lanes, simd_sequence !! j = Some lanes →
       ∃ lanes', simd_sequence' !! j = Some lanes' ∧
                 length lanes' = lanes_n ∧
                 (∀ i s x, i0 ≤ i < i0 + count →
                           sequence !! i = Some (Some s) → s !! j = Some x →
                           lanes' !! i = Some (to_lane x)) ∧
                 (∀ i, ¬ (i0 ≤ i < i0 + count) →
                       lanes' !! i = lanes !! i)).
Proof.
  revert i0 simd_sequence.
  induction count as [|count IH];
    intros i0 simd_sequence Hseq Hcount Hlen Hlanes; simpl.
  - exists simd_sequence. split_and!; [done | done |].
    intros j lanes Hj. exists lanes. split_and!; [done | by eapply Hlanes | |done].
    intros i s x Hi. lia.
  - destruct (Hseq i0) as (s0 & Hs0 & Hlen0); [lia|].
    destruct (transfer_sequence_seq sequence i0 s0 max_size 0 simd_sequence)
      as (simd1 & -> & Hlen1 & Hin1 & Hout1); [done | lia | lia | |].
    { intros j lanes Hj. rewrite (Hlanes j lanes Hj). lia. }
    simpl.
    destruct (IH (Datatypes.S i0) simd1) as (simd' & -> & Hlen' & Hres).
    { intros i Hi. apply Hseq. lia. }
    { lia. }
    { lia. }
    { intros j lanes Hj.
      destruct (decide (j < max_size)) as [Hlt|Hge].
      - destruct (Hin1 j) as (x & lanes0 & _ & Hl0 & Hl1); [lia|].
        rewrite Hl1 in Hj. injection Hj as <-.
        rewrite length_insert. by eapply Hlanes.
      - apply lookup_lt_Some in Hj. lia. }
    exists simd'. split_and!; [done | done |].
    intros j lanes Hj.
    assert (Hjlt : j < max_size) by (apply lookup_lt_Some in Hj; lia).
    destruct (Hin1 j) as (x0 & lanes0 & Hx0 & Hl0 & Hl1); [lia|].
    assert (lanes0 = lanes) as -> by congruence.
    destruct (Hres j _ Hl1) as (lanes' & Hl' & Hlen'' & Hin' & Hout').
    exists lanes'. split_and!; [done | done | |].
    + intros i s x Hi Hs Hx.
      destruct (decide (i = i0)) as [->|Hne].
      * rewrite Hout' by lia.
        assert (s = s0) as -> by congruence.
        assert (x = x0) as -> by congruence.
        apply list_lookup_insert_eq. rewrite (Hlanes j lanes Hj). lia.
      * apply (Hin' i s x); [lia | done | done].
    + intros i Hi. rewrite Hout' by lia.
      apply list_lookup_insert_ne. lia.
Qed.

(** An inner loop that is defined found the sequence, found its symbols
    and found lane [i]; it keeps the sizes. *)
Lemma transfer_sequence_Some_inv sequence i n j0 simd_sequence simd_sequence' :
  transfer_sequence to_lane sequence i simd_sequence (seq j0 n)
  = Some simd_sequence' →
  length simd_sequence' = length simd_sequence ∧
  (∀ j, length <$> simd_sequence' !! j = length <$> simd_sequence !! j) ∧
  (0 < n →
   ∃ s lanes, sequence !! i = Some (Some s) ∧ j0 + n ≤ length s ∧
              simd_sequence !! j0 = Some lanes ∧ i < length lanes).
Proof.
  revert j0 simd_sequence.
  induction n as [|n IH]; intros j0 simd_sequence H; simpl in H.
  - injection H as <-. split_and!; [done | done | lia].
  - destruct (sequence !! i) as [[s|]|] eqn:Hs; simpl in H; try done.
    destruct (s !! j0) as [x|] eqn:Hx; simpl in H; [|done].
    destruct (simd_sequence !! j0) as [lanes|] eqn:Hl; simpl in H; [|done].
    destruct (decide (i < length lanes)) as [Hi|Hi];
      [|by rewrite array_set_None in H by lia].
    rewrite array_set_Some in H by done. simpl in H.
    apply lookup_lt_Some in Hl as Hj0.
    rewrite array_set_Some in H by done. simpl in H.
    apply IH in H as (Hlen & Hlanes & Hrest).
    rewrite length_insert in Hlen. split_and!; [done | |].
    + intros j. rewrite Hlanes.
      destruct (decide (j = j0)) as [->|Hne].
      * rewrite list_lookup_insert_eq, Hl by done. simpl.
        by rewrite length_insert.
      * by rewrite list_lookup_insert_ne.
    + intros _. exists s, lanes. split_and!; [done | | done | done].
      destruct n as [|n].
      * apply lookup_lt_Some in Hx. lia.
      * destruct Hrest as (s' & _ & Hs' & Hlen' & _); [lia|].
        assert (s' = s) as -> by congruence. lia.
Qed.

(** An outer loop that is defined found every sequence present and long
    enough, and a lane for each. *)
Lemma transfer_sequences_Some_inv sequence max_size count i0 simd_sequence
    simd_sequence' lanes_n :
  transfer_sequences to_lane sequence max_size simd_sequence (seq i0 count)
  = Some simd_sequence' →
  0 < max_size →
  length simd_sequence = max_size →
  (∀ j lanes, simd_sequence !! j = Some lanes → length lanes = lanes_n) →
  ∀ i, i0 ≤ i < i0 + count →
       i < lanes_n ∧
       ∃ s, sequence !! i = Some (Some s) ∧ max_size ≤ length s.
Proof.
  revert i0 simd_sequence.
  induction count as [|count IH];
    intros i0 simd_sequence H Hmax Hlen Hlanes i Hi; [lia|].
  simpl in H.
  destruct (transfer_sequence _ _ _ _ _) as [simd1|] eqn:H1; [|done].
  simpl in H.
  apply transfer_sequence_Some_inv in H1 as (Hlen1 & Hlanes1 & Hfound).
  destruct Hfound as (s & lanes & Hs & Hlens & Hl & Hlane); [done|].
  destruct (decide (i = i0)) as [->|Hne].
  - split; [|by exists s].
    by rewrite <- (Hlanes 0 lanes Hl).
  - eapply (IH (Datatypes.S i0) simd1); [done | done | lia | | lia].
    intros j lanes' Hj.
    pose proof (Hlanes1 j) as Hsame. rewrite Hj in Hsame. simpl in Hsame.
    destruct (simd_sequence !! j) as [lanes0|] eqn:Hl0; [|done].
    injection Hsame as ->. by eapply Hlanes.
Qed.

End SimdFacts.

Section SimdTheorems.
Import Lane Driver SimdVector.
Context {sym S A : Type}.
Variable to_lane : sym → Z.
Variable value_init_score : list Z.
Variable value_init : A.
Variable init_strategy : S → A → S * A.
Implicit Types (sequence : list (option (list sym))).

Lemma transfer_sequences_length sequence max_size simd_sequence sequences
    simd_sequence' :
  transfer_sequences to_lane sequence max_size simd_sequence sequences
  = Some simd_sequence' →
  length simd_sequence' = length simd_sequence.
Proof.
  revert simd_sequence.
  induction sequences as [|i rest IH]; intros simd_sequence H; simpl in H.
  - by injection H as <-.
  - destruct (transfer_sequence _ _ _ _ _) as [simd1|] eqn:H1; [|done].
    simpl in H. apply IH in H.
    apply transfer_sequence_Some_inv in H1 as [Hlen _]. lia.
Qed.

Lemma initial_simd_sequence_lanes max_size j lanes :
  resize value_init_score max_size [] !! j = Some lanes →
  lanes = value_init_score ∧ j < max_size.
Proof.
  rewrite resize_nil. intros H. by apply lookup_replicate in H.
Qed.

(** X17. The SIMD vector is sized by the longest sequence that is present:
    whenever the initialisation is defined, the DP vector has one cell more
    than the longest present sequence has symbols, whatever it held before,
    and the SIMD sequence has one SIMD symbol per position of that
    sequence. *)
Theorem simd_initialise_size (dp_vector : list A) sequence s0 dp_vector'
    simd_sequence :
  simd_initialise to_lane value_init_score value_init dp_vector sequence
                  init_strategy s0 = Some (dp_vector', simd_sequence) →
  length dp_vector' = length simd_sequence + 1 ∧
  (∀ i s, sequence !! i = Some (Some s) → length s ≤ length simd_sequence) ∧
  (length simd_sequence = 0 ∨
   ∃ i s, sequence !! i = Some (Some s) ∧ length s = length simd_sequence).
Proof.
  unfold simd_initialise. intros H.
  destruct (transfer_sequences _ _ _ _ _) as [simd'|] eqn:Ht; [|done].
  simpl in H. injection H as <- <-.
  apply transfer_sequences_length in Ht.
  rewrite length_resize in Ht. rewrite Ht.
  destruct (max_sequence_size_spec sequence) as [Hall Hsome].
  split_and!; [|done|done].
  unfold initialise. by rewrite length_for_each, !length_resize.
Qed.

(** X18. For sequences that are all present and equally long, and no more
    of them than a SIMD score has lanes, the initialisation is defined and
    transposes them: lane [i] of SIMD symbol [j] is symbol [j] of sequence
    [i], and the lanes beyond the sequences keep their initial value. *)
Theorem simd_initialise_transposes (dp_vector : list A) sequence s0 n :
  (∀ i o, sequence !! i = Some o → ∃ s, o = Some s ∧ length s = n) →
  length sequence ≤ length value_init_score →
  ∃ dp_vector' simd_sequence,
    simd_initialise to_lane value_init_score value_init dp_vector sequence
                    init_strategy s0 = Some (dp_vector', simd_sequence) ∧
    (∀ i s j x, sequence !! i = Some (Some s) → s !! j = Some x →
                ∃ lanes, simd_sequence !! j = Some lanes ∧
                         lanes !! i = Some (to_lane x)) ∧
    (∀ j lanes i, simd_sequence !! j = Some lanes → length sequence ≤ i →
                  lanes !! i = value_init_score !! i).
Proof.
  intros Hsame Hcount. unfold simd_initialise.
  destruct (max_sequence_size_spec sequence) as [Hall Hsome].
  set (max_size := max_sequence_size sequence) in *.
  destruct (transfer_sequences_seq to_lane sequence max_size
              (length sequence) 0 (resize value_init_score max_size [])
              (length value_init_score))
    as (simd' & -> & Hlen' & Hres).
  { intros i Hi.
    destruct (lookup_lt_is_Some_2 sequence i) as [o Ho]; [lia|].
    destruct (Hsame i o Ho) as (s & -> & Hs). exists s. split; [done|].
    destruct Hsome as [-> | (i' & s' & Hs' & <-)]; [lia|].
    destruct (Hsame i' _ Hs') as (s'' & [= <-] & Hlen''). lia. }
  { done. }
  { apply length_resize. }
  { intros j lanes Hj.
    by apply initial_simd_sequence_lanes in Hj as [-> _]. }
  simpl. eexists _, _. split; [done|]. split.
  - intros i s j x Hs Hx.
    assert (Hj : j < max_size).
    { apply lookup_lt_Some in Hx. pose proof (Hall i s Hs). lia. }
    destruct (Hres j value_init_score)
      as (lanes' & Hl' & _ & Hin & _).
    { rewrite resize_nil. by apply lookup_replicate_2. }
    exists lanes'. split; [done|].
    apply (Hin i s x); [|done|done].
    apply lookup_lt_Some in Hs. lia.
  - intros j lanes i Hj Hi.
    assert (Hjlt : j < max_size) by (apply lookup_lt_Some in Hj; lia).
    destruct (Hres j value_init_score)
      as (lanes' & Hl' & _ & _ & Hout).
    { rewrite resize_nil. by apply lookup_replicate_2. }
    assert (lanes' = lanes) as -> by congruence.
    apply Hout. lia.
Qed.

(** X19. The transposition reads every sequence at every position of the
    longest one: an initialisation that is defined for a non-empty longest
    sequence had all sequences present, all of them as long as the longest,
    and no more of them than lanes.  An absent or a shorter sequence, or a
    sequence too many, makes it undefined. *)
Theorem simd_initialise_defined (dp_vector : list A) sequence s0 dp_vector'
    simd_sequence :
  simd_initialise to_lane value_init_score value_init dp_vector sequence
                  init_strategy s0 = Some (dp_vector', simd_sequence) →
  0 < max_sequence_size sequence →
  length sequence ≤ length value_init_score ∧
  ∀ i o, sequence !! i = Some o →
         ∃ s, o = Some s ∧ length s = max_sequence_size sequence.
Proof.
  unfold simd_initialise. intros H Hmax.
  destruct (transfer_sequences _ _ _ _ _) as [simd'|] eqn:Ht; [|done].
  pose proof (transfer_sequences_Some_inv to_lane sequence
                (max_sequence_size sequence) (length sequence) 0
                (resize value_init_score (max_sequence_size sequence) [])
                simd' (length value_init_score) Ht Hmax) as Hinv.
  assert (Hall : ∀ i, 0 ≤ i < 0 + length sequence →
                      i < length value_init_score ∧
                      ∃ s, sequence !! i = Some (Some s) ∧
                           max_sequence_size sequence ≤ length s).
  { apply Hinv; [apply length_resize|].
    intros j lanes Hj.
    by apply initial_simd_sequence_lanes in Hj as [-> _]. }
  split.
  - destruct (length sequence) as [|c] eqn:Hc; [lia|].
    destruct (Hall c) as [Hlt _]; lia.
  - intros i o Ho. apply lookup_lt_Some in Ho as Hi.
    destruct (Hall i) as (_ & s & Hs & Hge); [lia|].
    exists s. split; [congruence|].
    destruct (max_sequence_size_spec sequence) as [Hle _].
    pose proof (Hle i s Hs). lia.
Qed.

End SimdTheorems.

Section SimdExamples.
Import Lane Driver SimdVector.

Lemma simd_initialise_size_witness :
  let strategy := λ (i : nat) (_ : Z * Z), (S i, (Z.of_nat i, 0%Z)) in
  let dp_vector' := [(0, 0); (1, 0); (2, 0)]%Z in
  let simd_sequence := [[65; 67; 0; 0]; [67; 71; 0; 0]]%Z in
  let sequence := [Some [65; 67]; Some [67; 71]]%Z in
  length dp_vector' = length simd_sequence + 1 ∧
  (∀ i s, sequence !! i = Some (Some s) → length s ≤ length simd_sequence) ∧
  (length simd_sequence = 0 ∨
   ∃ i s, sequence !! i = Some (Some s) ∧ length s = length simd_sequence).
Proof.
  intros strategy dp_vector' simd_sequence sequence.
  apply (simd_initialise_size (λ x : Z, x) [0; 0; 0; 0]%Z (0, 0)%Z strategy
           [(9, 9)]%Z sequence 0).
  reflexivity.
Defined.

Lemma simd_initialise_transposes_witness :
  let strategy := λ (i : nat) (_ : Z * Z), (S i, (Z.of_nat i, 0%Z)) in
  let sequence := [Some [65; 67]; Some [67; 71]]%Z in
  ∃ dp_vector' simd_sequence,
    simd_initialise (λ x : Z, x) [0; 0; 0; 0]%Z (0, 0)%Z [] sequence
                    strategy 0 = Some (dp_vector', simd_sequence) ∧
    (∀ i s j x, sequence !! i = Some (Some s) → s !! j = Some x →
                ∃ lanes, simd_sequence !! j = Some lanes ∧
                         lanes !! i = Some x) ∧
    (∀ j lanes i, simd_sequence !! j = Some lanes → length sequence ≤ i →
                  lanes !! i = [0; 0; 0; 0]%Z !! i).
Proof.
  intros strategy sequence.
  apply (simd_initialise_transposes (λ x : Z, x) [0; 0; 0; 0]%Z (0, 0)%Z
           strategy [] sequence 0 2).
  - intros i o Ho.
    do 2 (destruct i as [|i]; [injection Ho as <-; by eexists|]).
    done.
  - simpl. lia.
Defined.

Lemma simd_initialise_defined_witness :
  let sequence := [Some [65; 67]; Some [67; 71]]%Z in
  length sequence ≤ length [0; 0; 0; 0]%Z ∧
  ∀ i o, sequence !! i = Some o →
         ∃ s, o = Some s ∧ length s = max_sequence_size sequence.
Proof.
  intros sequence.
  apply (simd_initialise_defined (λ x : Z, x) [0; 0; 0; 0]%Z (0, 0)%Z
           (λ (i : nat) (_ : Z * Z), (S i, (Z.of_nat i, 0%Z)))
           [] sequence 0 [(0, 0); (1, 0); (2, 0)]%Z
           [[65; 67; 0; 0]; [67; 71; 0; 0]]%Z).
  - reflexivity.
  - vm_compute. lia.
Defined.

(** A sequence shorter than the longest one, an absent sequence and a
    sequence beyond the lanes each make the initialisation undefined. *)
Lemma simd_initialise_undefined_examples :
  let strategy := λ (i : nat) (_ : Z * Z), (S i, (Z.of_nat i, 0%Z)) in
  simd_initialise (λ x : Z, x) [0; 0]%Z (0, 0)%Z [] [Some [65; 67]; Some [67]]%Z
                  strategy 0 = None ∧
  simd_initialise (λ x : Z, x) [0; 0]%Z (0, 0)%Z [] [Some [65; 67]; None]%Z
                  strategy 0 = None ∧
  simd_initialise (λ x : Z, x) [0; 0]%Z (0, 0)%Z []
                  [Some [65]; Some [67]; Some [71]]%Z strategy 0 = None.
Proof. done. Qed.

End SimdExamples.

(** ** A column without cells, and an offset beyond the row *)

Section ColumnHeadFacts.
Import Score Affine Lane.

(** X20. The preamble and the epilogue of a column sweep are inverse on the
    row cell: on a column that has only its head, [initialise_column]
    followed by [finalise_column] gives the row cell back as it was, for
    every score type; the column head has taken the row cell's best score
    and the cache holds the head's previous best score as the diagonal. *)
Theorem initialise_finalise_column {score_t : Type} `{ops : ScoreOps score_t}
    (gap : gap_model score_t) (row_cell first_column_cell : score_t * score_t) :
  let result := initialise_column gap row_cell first_column_cell in
  finalise_column row_cell result.2 result.1 = row_cell ∧
  result.2.1 = row_cell.1 ∧
  result.1 = (first_column_cell.1, row_cell.2).
Proof. by destruct row_cell. Qed.

(** X21. A last lane whose offset lies beyond the row is undefined: the
    count [row.size() - _row_offset] wraps around and the first load
    already reads outside the row. *)
Lemma last_lane_offset_past_row_witness :
  lane_construct 0 4 true {| column := [7; 8]; row := [10; 11; 12] |} 5
  = None.
Proof.
  apply (last_lane_offset_past_row (column_cell := nat) 0 4
           {| column := [7; 8]; row := [10; 11; 12] |} 5).
  - simpl. lia.
  - lia.
Defined.

End ColumnHeadFacts.
